(** * NN-Python: the Cython numeric kernels of [nlp/CythonFuncsPyx.pyx]

    A shallow embedding of the forward/backward kernels, the sparse adaptive
    update, the lookup-table back-propagation and the BLAS return-width
    self-test, followed by the properties stated about them.

    Modelling conventions.
    - [REAL_t] (C float) and C double values are real numbers; the
      [<REAL_t>] casts of the source are therefore the identity and no
      rounding is modelled.  [exp], [log] and [sqrt] of libc are [exp], [ln]
      and [sqrt] of the real-number library.
    - A [REAL_t *] argument is a total map from element offsets to reals, a
      [UI32_t *] argument a total map from offsets to integers: the source is
      compiled with [boundscheck=False] and never checks an offset.
    - [UI32_t] arithmetic wraps modulo 2^32 ([u32]); the cast [<int>] of an
      unsigned key is [to_int].  Arithmetic on C [int] and [long long] is
      carried out in [Z].
    - A [for v in range(n)] loop is [for_range n body]; the buffers a kernel
      writes are gathered in a record that is passed through the loop. *)

From Stdlib Require Import ZArith Reals Lra Lia List Bool FunctionalExtensionality.
Import ListNotations.

Open Scope Z_scope.

(** ** Buffers, integer conversions and loops *)

Definition buf := Z -> R.
Definition keys := Z -> Z.

Definition upd (m : buf) (i : Z) (v : R) : buf :=
  fun k => if Z.eqb k i then v else m k.

Definition u32 (z : Z) : Z := z mod 2 ^ 32.

Definition to_int (z : Z) : Z := (z + 2 ^ 31) mod 2 ^ 32 - 2 ^ 31.

Fixpoint loop {S : Type} (n : nat) (body : Z -> S -> S) (s : S) : S :=
  match n with
  | O => s
  | Datatypes.S m => body (Z.of_nat m) (loop m body s)
  end.

Definition for_range {S : Type} (n : Z) (body : Z -> S -> S) (s : S) : S :=
  loop (Z.to_nat n) body s.

(** Membership of an offset in the [dim] elements that start at [off]. *)
Definition in_row (off dim p : Z) : bool := (off <=? p) && (p <? off + dim).

(** ** The BLAS primitives bound at module level

    [sdot] and [dsdot] are the same routine of the linked BLAS, declared
    with a float and with a double return type. *)

Definition blas_dot (n : Z) (x : buf) (xo : Z) (y : buf) (yo : Z) : R :=
  for_range n (fun k acc => (acc + x (xo + k)%Z * y (yo + k)%Z)%R) 0%R.

Definition sdot := blas_dot.
Definition dsdot := blas_dot.

Definition saxpy (n : Z) (alpha : R) (x : buf) (xo : Z) (y : buf) (yo : Z) : buf :=
  for_range n (fun k y' => upd y' (yo + k) (y' (yo + k)%Z + alpha * x (xo + k)%Z)%R) y.

Definition dot_fn := Z -> buf -> Z -> buf -> Z -> R.

(** ** Module constants *)

Definition MAX_HSM_KEY : Z := 12345678.
Definition ONEF : R := 1%R.
Definition ADA_EPS : R := (1 / 1000)%R.
Definition ADA_RHO : R := (98 / 100)%R.

(** ** W2V_FF_BP: the two-table pairwise logistic kernel *)

Record w2v_state := mk_w2v {
  w2v_dWa : buf;
  w2v_dWc : buf;
  w2v_db : buf;
  w2v_L : buf
}.

(** Body of the inner [for j] loop of [cy_w2v_ff_bp0] / [cy_w2v_ff_bp1]. *)
Definition cy_w2v_slot (dotf : dot_fn) (pn_size : Z) (pn_keys : keys)
    (pn_sign Wa Wc b : buf) (do_grad vec_dim i row1 j : Z)
    (st : w2v_state) : w2v_state :=
  let c_key := pn_keys (i * pn_size + j) in
  let row2 := u32 (c_key * vec_dim) in
  let neg_label := (-1 * pn_sign (i * pn_size + j)%Z)%R in
  let y := (dotf vec_dim Wa row1 Wc row2 + b c_key)%R in
  let exp_pns_y := exp (neg_label * y) in
  let L1 := upd (w2v_L st) 0 (w2v_L st 0%Z + ln (1 + exp_pns_y))%R in
  if do_grad =? 1 then
    let g := (neg_label * (exp_pns_y / (1 + exp_pns_y)))%R in
    let dWc1 := saxpy vec_dim g Wa row1 (w2v_dWc st) row2 in
    let dWa1 := saxpy vec_dim g Wc row2 (w2v_dWa st) row1 in
    let db1 := upd (w2v_db st) c_key (w2v_db st c_key + g)%R in
    mk_w2v dWa1 dWc1 db1 L1
  else mk_w2v (w2v_dWa st) (w2v_dWc st) (w2v_db st) L1.

(** Body of the outer [for sp_i] loop. *)
Definition cy_w2v_row (dotf : dot_fn) (sp_idx anc_keys : keys) (pn_size : Z)
    (pn_keys : keys) (pn_sign Wa Wc b : buf) (do_grad vec_dim sp_i : Z)
    (st : w2v_state) : w2v_state :=
  let i := to_int (sp_idx sp_i) in
  let a_key := anc_keys i in
  let row1 := u32 (a_key * vec_dim) in
  for_range pn_size
    (cy_w2v_slot dotf pn_size pn_keys pn_sign Wa Wc b do_grad vec_dim i row1) st.

Definition cy_w2v_ff_bp0 (sp_size : Z) (sp_idx anc_keys : keys) (pn_size : Z)
    (pn_keys : keys) (pn_sign Wa Wc b : buf) (st : w2v_state)
    (do_grad vec_dim : Z) : w2v_state :=
  for_range sp_size
    (cy_w2v_row dsdot sp_idx anc_keys pn_size pn_keys pn_sign Wa Wc b
       do_grad vec_dim) st.

Definition cy_w2v_ff_bp1 (sp_size : Z) (sp_idx anc_keys : keys) (pn_size : Z)
    (pn_keys : keys) (pn_sign Wa Wc b : buf) (st : w2v_state)
    (do_grad vec_dim : Z) : w2v_state :=
  for_range sp_size
    (cy_w2v_row sdot sp_idx anc_keys pn_size pn_keys pn_sign Wa Wc b
       do_grad vec_dim) st.

(** ** NSL_FF_BP: the shared-table pairwise logistic kernel

    The buffers written by [cy_nsl_ff_bp*] and by [cy_acl_ff_bp*]. *)

Record lyr_state := mk_lyr {
  lyr_dX : buf;
  lyr_dW : buf;
  lyr_db : buf;
  lyr_L : buf
}.

(** Body of the inner [for j] loop of [cy_nsl_ff_bp0] / [cy_nsl_ff_bp1]. *)
Definition cy_nsl_slot (dotf : dot_fn) (pn_size : Z) (pn_keys : keys)
    (pn_sign X W b : buf) (do_grad vec_dim X_key row1 j : Z)
    (st : lyr_state) : lyr_state :=
  let W_key := pn_keys (u32 (X_key * pn_size + j)) in
  if W_key <? MAX_HSM_KEY then
    let row2 := u32 (W_key * vec_dim) in
    let neg_label := (-1 * pn_sign (u32 (X_key * pn_size + j)))%R in
    let y := (dotf vec_dim X row1 W row2 + b W_key)%R in
    let exp_pns_y := exp (neg_label * y) in
    let L1 := upd (lyr_L st) (u32 (X_key * pn_size + j)) (ln (1 + exp_pns_y)) in
    if do_grad =? 1 then
      let g := (neg_label * (exp_pns_y / (1 + exp_pns_y)))%R in
      let dW1 := saxpy vec_dim g X row1 (lyr_dW st) row2 in
      let dX1 := saxpy vec_dim g W row2 (lyr_dX st) row1 in
      let db1 := upd (lyr_db st) W_key (lyr_db st W_key + g)%R in
      mk_lyr dX1 dW1 db1 L1
    else mk_lyr (lyr_dX st) (lyr_dW st) (lyr_db st) L1
  else st.

Definition cy_nsl_row (dotf : dot_fn) (sp_idx : keys) (pn_size : Z)
    (pn_keys : keys) (pn_sign X W b : buf) (do_grad vec_dim sp_i : Z)
    (st : lyr_state) : lyr_state :=
  let X_key := sp_idx sp_i in
  let row1 := u32 (X_key * vec_dim) in
  for_range pn_size
    (cy_nsl_slot dotf pn_size pn_keys pn_sign X W b do_grad vec_dim X_key row1) st.

Definition cy_nsl_ff_bp0 (sp_size : Z) (sp_idx : keys) (pn_size : Z)
    (pn_keys : keys) (pn_sign X W b : buf) (st : lyr_state)
    (do_grad vec_dim : Z) : lyr_state :=
  for_range sp_size
    (cy_nsl_row dsdot sp_idx pn_size pn_keys pn_sign X W b do_grad vec_dim) st.

Definition cy_nsl_ff_bp1 (sp_size : Z) (sp_idx : keys) (pn_size : Z)
    (pn_keys : keys) (pn_sign X W b : buf) (st : lyr_state)
    (do_grad vec_dim : Z) : lyr_state :=
  for_range sp_size
    (cy_nsl_row sdot sp_idx pn_size pn_keys pn_sign X W b do_grad vec_dim) st.

(** ** ACL_FF_BP: the auto-contrastive kernel *)

(** The locals [a], [k] and [c], assigned once before the loops. *)
Definition acl_a : R := 1%R.
Definition acl_k : R := 1%R.
Definition acl_c : R := (1 / 10)%R.

(** The locals set at slot 0 and read at the later slots.  They are declared
    at function scope, so they survive from one iteration (and one row) to
    the next; [y_p] and [b_p] are only read in the iteration that sets them
    and are not kept. *)
Record acl_locals := mk_acl_locals {
  Wk_p : Z;
  r_p : Z;
  f_p : R
}.

(** The terms computed from [f_p] and [f_n] at a negative slot. *)
Definition acl_denom (fp fn : R) : R := (fp + fn + acl_c)%R.
Definition g_yp (fn denom : R) : R := (- (acl_a * (acl_c + fn)) / denom)%R.
Definition g_yn (fn denom : R) : R := ((acl_a * fn) / denom)%R.
Definition g_bp (fn denom : R) : R := (- (acl_c + fn) / denom)%R.
Definition g_bn (fn denom : R) : R := (fn / denom)%R.

(** Body of the inner [for j] loop of [cy_acl_ff_bp0] / [cy_acl_ff_bp1]. *)
Definition cy_acl_slot (dotf : dot_fn) (pn_size : Z) (pn_keys : keys)
    (X W b : buf) (do_grad vec_dim Xk row1 j : Z)
    (s : acl_locals * lyr_state) : acl_locals * lyr_state :=
  let loc := fst s in
  let st := snd s in
  if j =? 0 then
    let Wk_p1 := pn_keys (u32 (Xk * pn_size + j)) in
    let r_p1 := u32 (Wk_p1 * vec_dim) in
    let y_p := dotf vec_dim X row1 W r_p1 in
    let b_p := b Wk_p1 in
    let f_p1 := exp (acl_a * y_p + b_p) in
    (mk_acl_locals Wk_p1 r_p1 f_p1, st)
  else
    let Wk_n := pn_keys (u32 (Xk * pn_size + j)) in
    let r_n := u32 (Wk_n * vec_dim) in
    let y_n := dotf vec_dim X row1 W r_n in
    let b_n := b Wk_n in
    let f_n := (acl_k * exp (acl_a * y_n + b_n))%R in
    let denom := acl_denom (f_p loc) f_n in
    let L1 := upd (lyr_L st) (u32 (Xk * pn_size + j)) (- ln (f_p loc / denom))%R in
    if do_grad =? 1 then
      let dX1 := saxpy vec_dim (g_yp f_n denom) W (r_p loc) (lyr_dX st) row1 in
      let dX2 := saxpy vec_dim (g_yn f_n denom) W r_n dX1 row1 in
      let dW1 := saxpy vec_dim (g_yp f_n denom) X row1 (lyr_dW st) (r_p loc) in
      let dW2 := saxpy vec_dim (g_yn f_n denom) X row1 dW1 r_n in
      let db1 := upd (lyr_db st) (Wk_p loc)
                     (lyr_db st (Wk_p loc) + g_bp f_n denom)%R in
      let db2 := upd db1 Wk_n (db1 Wk_n + g_bn f_n denom)%R in
      (loc, mk_lyr dX2 dW2 db2 L1)
    else (loc, mk_lyr (lyr_dX st) (lyr_dW st) (lyr_db st) L1).

Definition cy_acl_row (dotf : dot_fn) (sp_idx : keys) (pn_size : Z)
    (pn_keys : keys) (X W b : buf) (do_grad vec_dim sp_i : Z)
    (s : acl_locals * lyr_state) : acl_locals * lyr_state :=
  let Xk := sp_idx sp_i in
  let row1 := u32 (Xk * vec_dim) in
  for_range pn_size
    (cy_acl_slot dotf pn_size pn_keys X W b do_grad vec_dim Xk row1) s.

(** [uninit] stands for the indeterminate values the locals hold when the
    function is entered; the result of the call is the buffers. *)
Definition cy_acl_ff_bp0 (sp_size : Z) (sp_idx : keys) (pn_size : Z)
    (pn_keys : keys) (pn_sign X W b : buf) (st : lyr_state)
    (do_grad vec_dim : Z) (uninit : acl_locals) : lyr_state :=
  snd (for_range sp_size
         (cy_acl_row dsdot sp_idx pn_size pn_keys X W b do_grad vec_dim)
         (uninit, st)).

Definition cy_acl_ff_bp1 (sp_size : Z) (sp_idx : keys) (pn_size : Z)
    (pn_keys : keys) (pn_sign X W b : buf) (st : lyr_state)
    (do_grad vec_dim : Z) (uninit : acl_locals) : lyr_state :=
  snd (for_range sp_size
         (cy_acl_row sdot sp_idx pn_size pn_keys X W b do_grad vec_dim)
         (uninit, st)).

(** ** AG_UPDATE_2D and AG_UPDATE_1D: the sparse adaptive update *)

Record ag_state := mk_ag {
  ag_W : buf;
  ag_dW : buf;
  ag_mW : buf
}.

Definition cy_ag_update_2d (sp_size : Z) (sp_idx row_idx : keys)
    (st : ag_state) (alpha : R) (vec_dim : Z) : ag_state :=
  for_range sp_size (fun sp_i st =>
    let i := sp_idx sp_i in
    let row_key := row_idx i in
    let row_ptr := u32 (row_key * vec_dim) in
    for_range vec_dim (fun v_i st =>
      let mW1 := upd (ag_mW st) (row_ptr + v_i)
                   (ADA_RHO * ag_mW st (row_ptr + v_i)%Z +
                    (1 - ADA_RHO) * ag_dW st (row_ptr + v_i)%Z
                      * ag_dW st (row_ptr + v_i)%Z)%R in
      let W1 := upd (ag_W st) (row_ptr + v_i)
                   (ag_W st (row_ptr + v_i)%Z -
                    alpha * (ag_dW st (row_ptr + v_i)%Z /
                             (sqrt (mW1 (row_ptr + v_i)%Z) + ADA_EPS)))%R in
      let dW1 := upd (ag_dW st) (row_ptr + v_i) 0%R in
      mk_ag W1 dW1 mW1) st) st.

Definition cy_ag_update_1d (sp_size : Z) (sp_idx row_idx : keys)
    (st : ag_state) (alpha : R) : ag_state :=
  for_range sp_size (fun sp_i st =>
    let i := sp_idx sp_i in
    let row_key := row_idx i in
    let mW1 := upd (ag_mW st) row_key
                 (ADA_RHO * ag_mW st row_key +
                  (1 - ADA_RHO) * ag_dW st row_key * ag_dW st row_key)%R in
    let W1 := upd (ag_W st) row_key
                 (ag_W st row_key -
                  alpha * (ag_dW st row_key / (sqrt (mW1 row_key) + ADA_EPS)))%R in
    let dW1 := upd (ag_dW st) row_key 0%R in
    mk_ag W1 dW1 mW1) st.

(** ** LUT_BP: scatter-accumulate of [dLdY] rows into [dW] *)

Record lut_state := mk_lut {
  lut_dLdY : buf;
  lut_dW : buf
}.

Definition cy_lut_bp (sp_size : Z) (sp_idx row_idx : keys) (st : lut_state)
    (vec_dim : Z) : lut_state :=
  for_range sp_size (fun sp_i st =>
    let i := sp_idx sp_i in
    let j := row_idx i in
    let row1 := u32 (i * vec_dim) in
    let row2 := u32 (j * vec_dim) in
    mk_lut (lut_dLdY st)
           (saxpy vec_dim ONEF (lut_dLdY st) row1 (lut_dW st) row2)) st.

(** ** The module-level kernel pointers and [init]

    [cy_w2v_ff_bp], [cy_nsl_ff_bp] and [cy_acl_ff_bp] are module globals
    holding a function pointer.  A pointer is unset ([None]) or holds the
    [...0] function (which calls [dsdot]) or the [...1] function (which calls
    [sdot]). *)

Inductive kernel_variant := Variant0 | Variant1.

Record globals := mk_globals {
  cy_w2v_ff_bp : option kernel_variant;
  cy_nsl_ff_bp : option kernel_variant;
  cy_acl_ff_bp : option kernel_variant
}.

Definition unbound : globals := mk_globals None None None.

(** What the linked dot routine leaves in the return register when it is
    called through the double-returning declaration: the eight bytes read as
    a double ([d_res]) and their first four bytes read as a float
    ([p_res[0]]). *)
Record raw_result := mk_raw {
  as_double : R;
  as_float : R
}.

Definition raw_dot_fn := Z -> buf -> Z -> buf -> Z -> raw_result.

Inductive outcome (A : Type) :=
| Returned (a : A)
| AssertionError.
Arguments Returned {A} a.
Arguments AssertionError {A}.

(** [init], as a function of the linked routine, of whether the interpreter
    checks assertions, and of the module globals.  [expected] is [<float>0.1],
    that is 0.1 under the convention that casts are the identity.  The last
    branch is [assert False] followed by [return 2]: with assertions checked
    the assertion raises; with assertions disabled ([python -O]) it is
    skipped and 2 is returned.  Neither way is a global assigned. *)
Definition init (raw_dsdot : raw_dot_fn) (assertions : bool) (g : globals)
    : outcome Z * globals :=
  let x : buf := fun _ => 10%R in
  let y : buf := fun _ => (1 / 100)%R in
  let expected := (1 / 10)%R in
  let size := 1 in
  let res := raw_dsdot size x 0 y 0 in
  let d_res := as_double res in
  let p_res0 := as_float res in
  if Rlt_dec (Rabs (d_res - expected)) (1 / 10000)%R then
    (Returned 0,
     mk_globals (Some Variant0) (Some Variant0) (Some Variant0))
  else if Rlt_dec (Rabs (p_res0 - expected)) (1 / 10000)%R then
    (Returned 1,
     mk_globals (Some Variant1) (Some Variant1) (Some Variant1))
  else if assertions then (AssertionError, g)
  else (Returned 2, g).

(** [DO_INIT = init()], run when the module is imported. *)
Definition module_import (raw_dsdot : raw_dot_fn) (assertions : bool)
    : outcome Z * globals :=
  init raw_dsdot assertions unbound.

(** ** The Python entry points

    A [def] wrapper reads the kernel pointer and calls through it; a call
    through an unset pointer has no result.  The wrappers take the module
    globals and hand them back, since they assign none of them. *)

Definition w2v_ff_bp_pyx (g : globals) (sp_size : Z) (sp_idx anc_keys : keys)
    (pn_size : Z) (pn_keys : keys) (pn_sign Wa Wc b : buf) (st : w2v_state)
    (do_grad vec_dim : Z) : option w2v_state * globals :=
  (match cy_w2v_ff_bp g with
   | Some Variant0 =>
       Some (cy_w2v_ff_bp0 sp_size sp_idx anc_keys pn_size pn_keys pn_sign
               Wa Wc b st do_grad vec_dim)
   | Some Variant1 =>
       Some (cy_w2v_ff_bp1 sp_size sp_idx anc_keys pn_size pn_keys pn_sign
               Wa Wc b st do_grad vec_dim)
   | None => None
   end, g).

Definition nsl_ff_bp_pyx (g : globals) (sp_size : Z) (sp_idx : keys)
    (pn_size : Z) (pn_keys : keys) (pn_sign X W b : buf) (st : lyr_state)
    (do_grad vec_dim : Z) : option lyr_state * globals :=
  (match cy_nsl_ff_bp g with
   | Some Variant0 =>
       Some (cy_nsl_ff_bp0 sp_size sp_idx pn_size pn_keys pn_sign X W b st
               do_grad vec_dim)
   | Some Variant1 =>
       Some (cy_nsl_ff_bp1 sp_size sp_idx pn_size pn_keys pn_sign X W b st
               do_grad vec_dim)
   | None => None
   end, g).

Definition acl_ff_bp_pyx (g : globals) (sp_size : Z) (sp_idx : keys)
    (pn_size : Z) (pn_keys : keys) (pn_sign X W b : buf) (st : lyr_state)
    (do_grad vec_dim : Z) (uninit : acl_locals) : option lyr_state * globals :=
  (match cy_acl_ff_bp g with
   | Some Variant0 =>
       Some (cy_acl_ff_bp0 sp_size sp_idx pn_size pn_keys pn_sign X W b st
               do_grad vec_dim uninit)
   | Some Variant1 =>
       Some (cy_acl_ff_bp1 sp_size sp_idx pn_size pn_keys pn_sign X W b st
               do_grad vec_dim uninit)
   | None => None
   end, g).

Definition ag_update_2d_pyx (g : globals) (sp_size : Z) (sp_idx row_idx : keys)
    (st : ag_state) (alpha : R) (vec_dim : Z) : ag_state * globals :=
  (cy_ag_update_2d sp_size sp_idx row_idx st alpha vec_dim, g).

Definition ag_update_1d_pyx (g : globals) (sp_size : Z) (sp_idx row_idx : keys)
    (st : ag_state) (alpha : R) : ag_state * globals :=
  (cy_ag_update_1d sp_size sp_idx row_idx st alpha, g).

Definition lut_bp_pyx (g : globals) (sp_size : Z) (sp_idx row_idx : keys)
    (st : lut_state) (vec_dim : Z) : lut_state * globals :=
  (cy_lut_bp sp_size sp_idx row_idx st vec_dim, g).

(** * The kernels as the specification describes them

    The definitions below follow the wording of the specification, not the
    source; the theorems compare them with the kernels above.  A row of a
    table is the [dim] consecutive elements that start at the row's offset. *)

(** Row-wise accumulation [dst_row += alpha * src_row], in closed form. *)
Definition axpy_row (alpha : R) (x : buf) (xo : Z) (y : buf) (yo dim : Z) : buf :=
  fun p => if in_row yo dim p then (y p + alpha * x (xo + (p - yo))%Z)%R else y p.

(** Score, loss and gradient coefficient of one anchor/target pair. *)
Definition spec_score (dim : Z) (anchor : buf) (a_off : Z) (target : buf)
    (t_off : Z) (bias : buf) (t_key : Z) : R :=
  (blas_dot dim anchor a_off target t_off + bias t_key)%R.

Definition spec_loss (sign y : R) : R := ln (1 + exp (- sign * y)).

Definition spec_g (sign y : R) : R :=
  (- sign * exp (- sign * y) / (1 + exp (- sign * y)))%R.

(** The three gradient accumulations of one pair: [g * target_row] into the
    anchor's gradient row, [g * anchor_row] into the target's gradient row
    and [g] into the target's bias gradient. *)
Definition spec_pair_grads (requested : bool) (g : R) (dim : Z)
    (anchor : buf) (a_off : Z) (target : buf) (t_off t_key : Z)
    (dA dT dB : buf) : buf * buf * buf :=
  if requested then
    (axpy_row g target t_off dA a_off dim,
     axpy_row g anchor a_off dT t_off dim,
     upd dB t_key (dB t_key + g)%R)
  else (dA, dT, dB).

(** Two-table kernel, one pair and the whole call. *)
Definition spec_w2v_pair (requested : bool) (dim : Z) (Wa Wc b : buf)
    (a_off t_off t_key : Z) (sign : R) (st : w2v_state) : w2v_state :=
  let y := spec_score dim Wa a_off Wc t_off b t_key in
  let '(dA, dT, dB) :=
    spec_pair_grads requested (spec_g sign y) dim Wa a_off Wc t_off t_key
      (w2v_dWa st) (w2v_dWc st) (w2v_db st) in
  mk_w2v dA dT dB (upd (w2v_L st) 0 (w2v_L st 0%Z + spec_loss sign y)%R).

Definition spec_w2v (requested : bool) (sp_size : Z) (sp_idx anc_keys : keys)
    (pn_size : Z) (pn_keys : keys) (pn_sign Wa Wc b : buf) (vec_dim : Z)
    (st : w2v_state) : w2v_state :=
  for_range sp_size (fun sp_i st =>
    let i := to_int (sp_idx sp_i) in
    let a_off := u32 (anc_keys i * vec_dim) in
    for_range pn_size (fun j st =>
      let t_key := pn_keys (i * pn_size + j) in
      spec_w2v_pair requested vec_dim Wa Wc b a_off (u32 (t_key * vec_dim))
        t_key (pn_sign (i * pn_size + j)) st) st) st.

(** Shared-table kernel: a slot whose key is at or above [MAX_HSM_KEY] is
    skipped; any other slot records its loss in its own entry of the loss
    matrix and accumulates the gradients of the two-table formula. *)
Definition spec_nsl_pair (requested : bool) (dim : Z) (X W b : buf)
    (x_off t_off t_key : Z) (sign : R) (l_idx : Z) (st : lyr_state) : lyr_state :=
  let y := spec_score dim X x_off W t_off b t_key in
  let '(dA, dT, dB) :=
    spec_pair_grads requested (spec_g sign y) dim X x_off W t_off t_key
      (lyr_dX st) (lyr_dW st) (lyr_db st) in
  mk_lyr dA dT dB (upd (lyr_L st) l_idx (spec_loss sign y)).

Definition spec_nsl (requested : bool) (sp_size : Z) (sp_idx : keys)
    (pn_size : Z) (pn_keys : keys) (pn_sign X W b : buf) (vec_dim : Z)
    (st : lyr_state) : lyr_state :=
  for_range sp_size (fun sp_i st =>
    let x_key := sp_idx sp_i in
    let x_off := u32 (x_key * vec_dim) in
    for_range pn_size (fun j st =>
      let slot := u32 (x_key * pn_size + j) in
      let t_key := pn_keys slot in
      if MAX_HSM_KEY <=? t_key then st
      else spec_nsl_pair requested vec_dim X W b x_off (u32 (t_key * vec_dim))
             t_key (pn_sign slot) slot st) st) st.

(** Contrastive-ratio kernel: [f_pos] is computed once per anchor row from
    column 0; every later column is a negative. *)
Definition spec_f_pos (dim : Z) (X : buf) (x_off : Z) (W b : buf)
    (pos_off pos_key : Z) : R :=
  exp (acl_a * blas_dot dim X x_off W pos_off + b pos_key).

Definition spec_acl_neg (requested : bool) (dim : Z) (X W b : buf)
    (x_off pos_off pos_key neg_off neg_key : Z) (f_pos : R) (l_idx : Z)
    (st : lyr_state) : lyr_state :=
  let f_neg := (acl_k * exp (acl_a * blas_dot dim X x_off W neg_off + b neg_key))%R in
  let denom := (f_pos + f_neg + acl_c)%R in
  let L' := upd (lyr_L st) l_idx (- ln (f_pos / denom))%R in
  if requested then
    let g_pos := (- acl_a * (acl_c + f_neg) / denom)%R in
    let g_neg := (acl_a * f_neg / denom)%R in
    let dX' := axpy_row g_neg W neg_off
                 (axpy_row g_pos W pos_off (lyr_dX st) x_off dim) x_off dim in
    let dW' := axpy_row g_neg X x_off
                 (axpy_row g_pos X x_off (lyr_dW st) pos_off dim) neg_off dim in
    let db1 := upd (lyr_db st) pos_key
                 (lyr_db st pos_key + - (acl_c + f_neg) / denom)%R in
    let db' := upd db1 neg_key (db1 neg_key + f_neg / denom)%R in
    mk_lyr dX' dW' db' L'
  else mk_lyr (lyr_dX st) (lyr_dW st) (lyr_db st) L'.

Definition spec_acl_row (requested : bool) (pn_size : Z) (pn_keys : keys)
    (X W b : buf) (vec_dim x_key : Z) (st : lyr_state) : lyr_state :=
  let x_off := u32 (x_key * vec_dim) in
  let pos_key := pn_keys (u32 (x_key * pn_size + 0)) in
  let pos_off := u32 (pos_key * vec_dim) in
  let f_pos := spec_f_pos vec_dim X x_off W b pos_off pos_key in
  for_range (pn_size - 1) (fun n st =>
    let j := n + 1 in
    let neg_key := pn_keys (u32 (x_key * pn_size + j)) in
    spec_acl_neg requested vec_dim X W b x_off pos_off pos_key
      (u32 (neg_key * vec_dim)) neg_key f_pos (u32 (x_key * pn_size + j)) st) st.

Definition spec_acl (requested : bool) (sp_size : Z) (sp_idx : keys)
    (pn_size : Z) (pn_keys : keys) (X W b : buf) (vec_dim : Z)
    (st : lyr_state) : lyr_state :=
  for_range sp_size (fun sp_i st =>
    spec_acl_row requested pn_size pn_keys X W b vec_dim (sp_idx sp_i) st) st.

(** Sparse adaptive update of one addressed element [e]. *)
Definition spec_ag_elem (rho eps alpha : R) (e : Z) (st : ag_state) : ag_state :=
  let moment := (rho * ag_mW st e + (1 - rho) * (ag_dW st e) ^ 2)%R in
  let param := (ag_W st e - alpha * ag_dW st e / (sqrt moment + eps))%R in
  mk_ag (upd (ag_W st) e param) (upd (ag_dW st) e 0%R) (upd (ag_mW st) e moment).

(** The elements a call addresses, in the order of the loops: element
    [row_idx[sp_idx[sp_i]]] for the 1D variant, the [vec_dim] elements of row
    [row_idx[sp_idx[sp_i]]] for the 2D variant. *)
Definition range (n : Z) : list Z := map Z.of_nat (seq 0 (Z.to_nat n)).

Definition ag_addressed_1d (sp_size : Z) (sp_idx row_idx : keys) : list Z :=
  map (fun sp_i => row_idx (sp_idx sp_i)) (range sp_size).

Definition ag_addressed_2d (sp_size : Z) (sp_idx row_idx : keys) (vec_dim : Z)
    : list Z :=
  flat_map (fun sp_i =>
    map (fun v_i => u32 (row_idx (sp_idx sp_i) * vec_dim) + v_i) (range vec_dim))
    (range sp_size).

(** The update recurrence applied to a sequence of elements, with the fixed
    constants [rho = 0.98] and [eps = 0.001]. *)
Definition spec_ag_run_with (rho eps alpha : R) (es : list Z) (st : ag_state)
    : ag_state :=
  fold_left (fun st e => spec_ag_elem rho eps alpha e st) es st.

Definition spec_ag_run (alpha : R) (es : list Z) (st : ag_state) : ag_state :=
  spec_ag_run_with (98 / 100) (1 / 1000) alpha es st.

(** Scatter-accumulate: what the selected minibatch items contribute to the
    element at offset [p] of [dW]. *)
Definition lut_contrib (sp_idx row_idx : keys) (dLdY : buf) (vec_dim sp_i p : Z) : R :=
  let i := sp_idx sp_i in
  let src := u32 (i * vec_dim) in
  let dst := u32 (row_idx i * vec_dim) in
  if in_row dst vec_dim p then dLdY (src + (p - dst)) else 0%R.

Definition lut_sum (sp_size : Z) (sp_idx row_idx : keys) (dLdY : buf)
    (vec_dim p : Z) : R :=
  for_range sp_size
    (fun sp_i acc => (acc + lut_contrib sp_idx row_idx dLdY vec_dim sp_i p)%R) 0%R.

(** The gradient accumulators of a kernel state are as they were. *)
Definition w2v_grads_unchanged (st st' : w2v_state) : Prop :=
  w2v_dWa st' = w2v_dWa st /\ w2v_dWc st' = w2v_dWc st /\ w2v_db st' = w2v_db st.

Definition lyr_grads_unchanged (st st' : lyr_state) : Prop :=
  lyr_dX st' = lyr_dX st /\ lyr_dW st' = lyr_dW st /\ lyr_db st' = lyr_db st.

(** The losses of a call, in loop order.  The two-table kernel produces one
    loss per selected row and slot; the other two kernels produce one
    (entry, loss) pair per slot they process. *)
Definition w2v_losses (sp_size : Z) (sp_idx anc_keys : keys) (pn_size : Z)
    (pn_keys : keys) (pn_sign Wa Wc b : buf) (vec_dim : Z) : list R :=
  flat_map (fun sp_i =>
    let i := to_int (sp_idx sp_i) in
    let a_off := u32 (anc_keys i * vec_dim) in
    flat_map (fun j =>
      let t_key := pn_keys (i * pn_size + j) in
      [spec_loss (pn_sign (i * pn_size + j))
         (spec_score vec_dim Wa a_off Wc (u32 (t_key * vec_dim)) b t_key)])
      (range pn_size)) (range sp_size).

Definition nsl_loss_writes (sp_size : Z) (sp_idx : keys) (pn_size : Z)
    (pn_keys : keys) (pn_sign X W b : buf) (vec_dim : Z) : list (Z * R) :=
  flat_map (fun sp_i =>
    let x_key := sp_idx sp_i in
    let x_off := u32 (x_key * vec_dim) in
    flat_map (fun j =>
      let slot := u32 (x_key * pn_size + j) in
      let t_key := pn_keys slot in
      if MAX_HSM_KEY <=? t_key then []
      else [(slot,
             spec_loss (pn_sign slot)
               (spec_score vec_dim X x_off W (u32 (t_key * vec_dim)) b t_key))])
      (range pn_size)) (range sp_size).

Definition acl_loss_writes (sp_size : Z) (sp_idx : keys) (pn_size : Z)
    (pn_keys : keys) (X W b : buf) (vec_dim : Z) : list (Z * R) :=
  flat_map (fun sp_i =>
    let x_key := sp_idx sp_i in
    let x_off := u32 (x_key * vec_dim) in
    let pos_key := pn_keys (u32 (x_key * pn_size + 0)) in
    let f_pos := spec_f_pos vec_dim X x_off W b (u32 (pos_key * vec_dim)) pos_key in
    flat_map (fun n =>
      let j := n + 1 in
      let neg_key := pn_keys (u32 (x_key * pn_size + j)) in
      let f_neg :=
        (acl_k * exp (acl_a * blas_dot vec_dim X x_off W (u32 (neg_key * vec_dim))
                      + b neg_key))%R in
      [(u32 (x_key * pn_size + j), (- ln (f_pos / (f_pos + f_neg + acl_c)))%R)])
      (range (pn_size - 1))) (range sp_size).

(** Adding losses into entry 0, and storing losses into their entries. *)
Definition add_all (ls : list R) (L : buf) : buf :=
  fold_left (fun L l => upd L 0 (L 0%Z + l)%R) ls L.

Definition store_all (ws : list (Z * R)) (L : buf) : buf :=
  fold_left (fun L w => upd L (fst w) (snd w)) ws L.

(** * Proofs *)

(** ** Generic facts about buffers and loops *)

(** Evaluation of a kernel on concrete arguments, leaving real arithmetic
    symbolic, and evaluation of [exp] at arguments that are 0. *)
Ltac eval_kernel :=
  cbv - [Rplus Rmult Rminus Rdiv Ropp Rinv IZR exp ln sqrt Rabs Rlt Rgt Rle Rge].

Lemma exp_zero_arg (t : R) : t = 0%R -> exp t = 1%R.
Proof. intros ->. apply exp_0. Qed.

Ltac exp_at_zero :=
  repeat match goal with
  | |- context [exp ?t] =>
      progress (replace (exp t) with 1%R by (symmetry; apply exp_zero_arg; ring))
  end.

Lemma upd_same (m : buf) (i : Z) (v : R) : upd m i v i = v.
Proof. unfold upd. now rewrite Z.eqb_refl. Qed.

Lemma upd_other (m : buf) (i k : Z) (v : R) : k <> i -> upd m i v k = m k.
Proof. intros H. unfold upd. destruct (Z.eqb_spec k i); congruence. Qed.

(** A row offset [key * dim] computed in [UI32_t] arithmetic is the exact
    product as long as the product fits in 32 bits, that is for every table
    of fewer than 2^32 elements. *)
Lemma u32_small (z : Z) : 0 <= z < 2 ^ 32 -> u32 z = z.
Proof. intros H. unfold u32. now apply Z.mod_small. Qed.

Lemma in_row_inside off dim k : 0 <= k < dim -> in_row off dim (off + k) = true.
Proof.
  intros H. unfold in_row.
  destruct (Z.leb_spec off (off + k)), (Z.ltb_spec (off + k) (off + dim));
    [reflexivity|lia|lia|lia].
Qed.

Lemma loop_ext {S : Type} (n : nat) (f g : Z -> S -> S) (s : S) :
  (forall k t, f k t = g k t) -> loop n f s = loop n g s.
Proof.
  intros E. induction n as [|m IH]; simpl; [reflexivity|].
  now rewrite IH, E.
Qed.

Lemma loop_preserves {S : Type} (P : S -> Prop) (n : nat) (f : Z -> S -> S) (s : S) :
  P s -> (forall k t, P t -> P (f k t)) -> P (loop n f s).
Proof.
  intros H0 Hstep. induction n as [|m IH]; simpl; auto.
Qed.

Lemma loop_project {S T : Type} (pr : S -> T) (n : nat)
    (f : Z -> S -> S) (g : Z -> T -> T) (s : S) :
  (forall k t, pr (f k t) = g k (pr t)) -> pr (loop n f s) = loop n g (pr s).
Proof.
  intros E. induction n as [|m IH]; simpl; [reflexivity|].
  now rewrite E, IH.
Qed.

Lemma for_range_ext {S : Type} (n : Z) (f g : Z -> S -> S) (s : S) :
  (forall k t, f k t = g k t) -> for_range n f s = for_range n g s.
Proof. apply loop_ext. Qed.

Lemma saxpy_loop_at (n : nat) alpha x xo y yo p :
  loop n (fun k y' => upd y' (yo + k) (y' (yo + k)%Z + alpha * x (xo + k)%Z)%R) y p =
  if in_row yo (Z.of_nat n) p then (y p + alpha * x (xo + (p - yo))%Z)%R else y p.
Proof.
  unfold in_row. induction n as [|m IH].
  - simpl. destruct (Z.leb_spec yo p), (Z.ltb_spec p (yo + 0)); simpl; auto; lia.
  - cbn [loop]. unfold upd at 1.
    destruct (Z.eqb_spec p (yo + Z.of_nat m)) as [->|Hne].
    + rewrite IH.
      replace (yo + Z.of_nat m - yo) with (Z.of_nat m) by lia.
      destruct (Z.leb_spec yo (yo + Z.of_nat m)),
               (Z.ltb_spec (yo + Z.of_nat m) (yo + Z.of_nat m)),
               (Z.ltb_spec (yo + Z.of_nat m) (yo + Z.of_nat (Datatypes.S m)));
        simpl; auto; lia.
    + rewrite IH.
      destruct (Z.leb_spec yo p), (Z.ltb_spec p (yo + Z.of_nat m)),
               (Z.ltb_spec p (yo + Z.of_nat (Datatypes.S m)));
        simpl; auto; lia.
Qed.

Lemma saxpy_closed n alpha x xo y yo :
  saxpy n alpha x xo y yo = axpy_row alpha x xo y yo n.
Proof.
  apply functional_extensionality; intros p.
  unfold saxpy, for_range, axpy_row. rewrite saxpy_loop_at.
  unfold in_row.
  destruct (Z.leb_spec yo p); simpl; [|reflexivity].
  destruct (Z.ltb_spec p (yo + Z.of_nat (Z.to_nat n))), (Z.ltb_spec p (yo + n));
    auto; lia.
Qed.

(** ** Two-table kernel *)

Lemma neg_label_mul (s y : R) : (-1 * s * y = - s * y)%R.
Proof. ring. Qed.

Lemma neg_label_coeff (s e : R) : (-1 * s * (e / (1 + e)) = - s * e / (1 + e))%R.
Proof. unfold Rdiv. ring. Qed.

Lemma w2v_slot_spec pn_size pn_keys pn_sign Wa Wc b do_grad vec_dim i row1 j st :
  cy_w2v_slot blas_dot pn_size pn_keys pn_sign Wa Wc b do_grad vec_dim i row1 j st =
  spec_w2v_pair (do_grad =? 1) vec_dim Wa Wc b row1
    (u32 (pn_keys (i * pn_size + j) * vec_dim)) (pn_keys (i * pn_size + j))
    (pn_sign (i * pn_size + j)) st.
Proof.
  unfold cy_w2v_slot, spec_w2v_pair, spec_pair_grads, spec_loss, spec_g, spec_score.
  rewrite neg_label_coeff, !neg_label_mul.
  destruct (do_grad =? 1); [|reflexivity].
  now rewrite !saxpy_closed.
Qed.

Lemma w2v_kernel_spec dotf sp_size sp_idx anc_keys pn_size pn_keys pn_sign
    Wa Wc b st do_grad vec_dim :
  dotf = blas_dot ->
  for_range sp_size
    (cy_w2v_row dotf sp_idx anc_keys pn_size pn_keys pn_sign Wa Wc b
       do_grad vec_dim) st =
  spec_w2v (do_grad =? 1) sp_size sp_idx anc_keys pn_size pn_keys pn_sign
    Wa Wc b vec_dim st.
Proof.
  intros ->. unfold spec_w2v. apply for_range_ext; intros sp_i t.
  unfold cy_w2v_row. apply for_range_ext; intros j u.
  apply w2v_slot_spec.
Qed.

(** C1.  Every call of the two-table kernel, through either variant or
    through the Python entry point, processes each selected row and each of
    its [pn_size] target slots as the specification says: score
    [y = dot + bias], loss [log (1 + exp (- sign * y))] added to [L[0]], and,
    when [do_grad] is 1, the coefficient [g = - sign * e / (1 + e)] scaled
    into the target's gradient row, the anchor's gradient row and the
    target's bias gradient.  For sign +1 the loss is [log (1 + exp (- y))],
    for sign -1 it is [log (1 + exp y)]. *)
Theorem w2v_pairwise_logistic :
  forall sp_size sp_idx anc_keys pn_size pn_keys pn_sign Wa Wc b st do_grad vec_dim,
    cy_w2v_ff_bp0 sp_size sp_idx anc_keys pn_size pn_keys pn_sign Wa Wc b st
      do_grad vec_dim =
    spec_w2v (do_grad =? 1) sp_size sp_idx anc_keys pn_size pn_keys pn_sign
      Wa Wc b vec_dim st
    /\ cy_w2v_ff_bp1 sp_size sp_idx anc_keys pn_size pn_keys pn_sign Wa Wc b st
         do_grad vec_dim =
       spec_w2v (do_grad =? 1) sp_size sp_idx anc_keys pn_size pn_keys pn_sign
         Wa Wc b vec_dim st
    /\ (forall g,
          fst (w2v_ff_bp_pyx g sp_size sp_idx anc_keys pn_size pn_keys pn_sign
                 Wa Wc b st do_grad vec_dim) =
          option_map (fun _ =>
            spec_w2v (do_grad =? 1) sp_size sp_idx anc_keys pn_size pn_keys
              pn_sign Wa Wc b vec_dim st) (cy_w2v_ff_bp g))
    /\ (forall y, spec_loss 1 y = ln (1 + exp (- y)))
    /\ (forall y, spec_loss (-1) y = ln (1 + exp y)).
Proof.
  intros.
  assert (E0 := w2v_kernel_spec dsdot sp_size sp_idx anc_keys pn_size pn_keys
                  pn_sign Wa Wc b st do_grad vec_dim eq_refl).
  assert (E1 := w2v_kernel_spec sdot sp_size sp_idx anc_keys pn_size pn_keys
                  pn_sign Wa Wc b st do_grad vec_dim eq_refl).
  repeat split.
  - exact E0.
  - exact E1.
  - intros g. unfold w2v_ff_bp_pyx. cbn [fst].
    destruct (cy_w2v_ff_bp g) as [[|]|]; cbn [option_map].
    + unfold cy_w2v_ff_bp0. now rewrite E0.
    + unfold cy_w2v_ff_bp1. now rewrite E1.
    + reflexivity.
  - intros y. unfold spec_loss. f_equal. f_equal. f_equal. ring.
  - intros y. unfold spec_loss. f_equal. f_equal. f_equal. ring.
Qed.

(** ** Shared-table kernel *)

Lemma nsl_slot_spec pn_size pn_keys pn_sign X W b do_grad vec_dim X_key row1 j st :
  cy_nsl_slot blas_dot pn_size pn_keys pn_sign X W b do_grad vec_dim X_key row1 j st =
  let slot := u32 (X_key * pn_size + j) in
  if MAX_HSM_KEY <=? pn_keys slot then st
  else spec_nsl_pair (do_grad =? 1) vec_dim X W b row1
         (u32 (pn_keys slot * vec_dim)) (pn_keys slot) (pn_sign slot) slot st.
Proof.
  unfold cy_nsl_slot. cbv zeta.
  destruct (Z.ltb_spec (pn_keys (u32 (X_key * pn_size + j))) MAX_HSM_KEY) as [Hlt|Hge];
    destruct (Z.leb_spec MAX_HSM_KEY (pn_keys (u32 (X_key * pn_size + j))));
    try lia; [|reflexivity].
  unfold spec_nsl_pair, spec_pair_grads, spec_loss, spec_g, spec_score.
  rewrite neg_label_coeff, !neg_label_mul.
  destruct (do_grad =? 1); [|reflexivity].
  now rewrite !saxpy_closed.
Qed.

Lemma nsl_kernel_spec dotf sp_size sp_idx pn_size pn_keys pn_sign X W b st
    do_grad vec_dim :
  dotf = blas_dot ->
  for_range sp_size
    (cy_nsl_row dotf sp_idx pn_size pn_keys pn_sign X W b do_grad vec_dim) st =
  spec_nsl (do_grad =? 1) sp_size sp_idx pn_size pn_keys pn_sign X W b vec_dim st.
Proof.
  intros ->. unfold spec_nsl. apply for_range_ext; intros sp_i t.
  unfold cy_nsl_row. apply for_range_ext; intros j u.
  apply nsl_slot_spec.
Qed.

(** ** Contrastive-ratio kernel *)

Lemma loop_shift {S : Type} (m : nat) (body : Z -> S -> S) (s : S) :
  loop (Datatypes.S m) body s = loop m (fun n => body (n + 1)) (body 0 s).
Proof.
  induction m as [|m IH]; [reflexivity|].
  change (loop (Datatypes.S (Datatypes.S m)) body s)
    with (body (Z.of_nat (Datatypes.S m)) (loop (Datatypes.S m) body s)).
  rewrite IH. cbn [loop]. f_equal. lia.
Qed.

Lemma acl_coeff_pos (fn d : R) : g_yp fn d = (- acl_a * (acl_c + fn) / d)%R.
Proof. unfold g_yp, Rdiv. ring. Qed.

Lemma acl_neg_slot_spec pn_size pn_keys X W b do_grad vec_dim Xk row1 j loc st :
  j <> 0 ->
  cy_acl_slot blas_dot pn_size pn_keys X W b do_grad vec_dim Xk row1 j (loc, st) =
  (loc,
   let neg_key := pn_keys (u32 (Xk * pn_size + j)) in
   spec_acl_neg (do_grad =? 1) vec_dim X W b row1 (r_p loc) (Wk_p loc)
     (u32 (neg_key * vec_dim)) neg_key (f_p loc) (u32 (Xk * pn_size + j)) st).
Proof.
  intros Hj. unfold cy_acl_slot. cbn [fst snd].
  destruct (Z.eqb_spec j 0) as [->|_]; [congruence|].
  cbv zeta. unfold spec_acl_neg. cbv zeta. unfold acl_denom.
  destruct (do_grad =? 1); [|reflexivity].
  rewrite !saxpy_closed, acl_coeff_pos. reflexivity.
Qed.

Lemma acl_neg_loop pn_size pn_keys X W b do_grad vec_dim Xk row1 loc (m : nat) st :
  loop m (fun n => cy_acl_slot blas_dot pn_size pn_keys X W b do_grad vec_dim
                     Xk row1 (n + 1)) (loc, st) =
  (loc,
   loop m (fun n st =>
     let j := n + 1 in
     let neg_key := pn_keys (u32 (Xk * pn_size + j)) in
     spec_acl_neg (do_grad =? 1) vec_dim X W b row1 (r_p loc) (Wk_p loc)
       (u32 (neg_key * vec_dim)) neg_key (f_p loc) (u32 (Xk * pn_size + j)) st) st).
Proof.
  induction m as [|m IH]; [reflexivity|].
  cbn [loop]. rewrite IH. apply acl_neg_slot_spec. lia.
Qed.

Lemma acl_row_spec sp_idx pn_size pn_keys X W b do_grad vec_dim sp_i s :
  snd (cy_acl_row blas_dot sp_idx pn_size pn_keys X W b do_grad vec_dim sp_i s) =
  spec_acl_row (do_grad =? 1) pn_size pn_keys X W b vec_dim (sp_idx sp_i) (snd s).
Proof.
  unfold cy_acl_row, spec_acl_row, for_range. cbv zeta.
  destruct (Z.to_nat pn_size) as [|m] eqn:En.
  - replace (Z.to_nat (pn_size - 1)) with 0%nat by lia. reflexivity.
  - replace (Z.to_nat (pn_size - 1)) with m by lia.
    rewrite loop_shift.
    destruct s as [loc st].
    unfold cy_acl_slot at 2. cbn [fst snd Z.eqb].
    rewrite acl_neg_loop. reflexivity.
Qed.

Lemma acl_kernel_spec dotf sp_size sp_idx pn_size pn_keys X W b st do_grad
    vec_dim uninit :
  dotf = blas_dot ->
  snd (for_range sp_size
         (cy_acl_row dotf sp_idx pn_size pn_keys X W b do_grad vec_dim)
         (uninit, st)) =
  spec_acl (do_grad =? 1) sp_size sp_idx pn_size pn_keys X W b vec_dim st.
Proof.
  intros ->. unfold spec_acl, for_range.
  apply (loop_project snd). intros k t. apply acl_row_spec.
Qed.

(** C5.  With [a = 1], [k = 1], [c = 0.1], a call of the contrastive-ratio
    kernel computes [f_pos] once per anchor row, from column 0, and uses that
    value at every later column of the row; column [j >= 1] stores
    [- log (f_pos / (f_pos + f_neg_j + c))] in its loss entry.  The result
    does not depend on what the locals held on entry, and the step of
    column 0 writes no loss entry and no gradient. *)
Theorem acl_forward_pass :
  forall sp_size sp_idx pn_size pn_keys pn_sign X W b st do_grad vec_dim uninit,
    acl_a = 1%R /\ acl_k = 1%R /\ acl_c = (1 / 10)%R
    /\ cy_acl_ff_bp0 sp_size sp_idx pn_size pn_keys pn_sign X W b st do_grad
         vec_dim uninit
       = spec_acl (do_grad =? 1) sp_size sp_idx pn_size pn_keys X W b vec_dim st
    /\ cy_acl_ff_bp1 sp_size sp_idx pn_size pn_keys pn_sign X W b st do_grad
         vec_dim uninit
       = spec_acl (do_grad =? 1) sp_size sp_idx pn_size pn_keys X W b vec_dim st
    /\ (forall dotf Xk row1 s,
          snd (cy_acl_slot dotf pn_size pn_keys X W b do_grad vec_dim Xk row1 0 s)
          = snd s).
Proof.
  intros. repeat split.
  - now apply acl_kernel_spec.
  - now apply acl_kernel_spec.
Qed.

(** ** Sparse adaptive update *)

Lemma loop_fold {S : Type} (n : nat) (body : Z -> S -> S) (s : S) :
  loop n body s = fold_left (fun s k => body k s) (map Z.of_nat (seq 0 n)) s.
Proof.
  induction n as [|m IH]; [reflexivity|].
  rewrite seq_S, map_app, fold_left_app. cbn [loop]. now rewrite IH.
Qed.

Lemma for_range_fold {S : Type} (n : Z) (body : Z -> S -> S) (s : S) :
  for_range n body s = fold_left (fun s k => body k s) (range n) s.
Proof. apply loop_fold. Qed.

Lemma fold_left_map {S A B : Type} (f : S -> B -> S) (h : A -> B) (l : list A) (s : S) :
  fold_left f (map h l) s = fold_left (fun s a => f s (h a)) l s.
Proof. revert s. induction l as [|a l IH]; intros s; simpl; auto. Qed.

Lemma fold_left_flat_map {S A B : Type} (f : S -> B -> S) (h : A -> list B)
    (l : list A) (s : S) :
  fold_left f (flat_map h l) s = fold_left (fun s a => fold_left f (h a) s) l s.
Proof.
  revert s. induction l as [|a l IH]; intros s; simpl; auto.
  now rewrite fold_left_app, IH.
Qed.

Lemma fold_left_ext {S A : Type} (f g : S -> A -> S) (l : list A) (s : S) :
  (forall s a, f s a = g s a) -> fold_left f l s = fold_left g l s.
Proof.
  intros E. revert s. induction l as [|a l IH]; intros s; simpl; auto.
  now rewrite E, IH.
Qed.

Lemma ag_body_spec (alpha : R) (e : Z) (st : ag_state) :
  (let mW1 := upd (ag_mW st) e
                (ADA_RHO * ag_mW st e + (1 - ADA_RHO) * ag_dW st e * ag_dW st e)%R in
   let W1 := upd (ag_W st) e
                (ag_W st e - alpha * (ag_dW st e / (sqrt (mW1 e) + ADA_EPS)))%R in
   let dW1 := upd (ag_dW st) e 0%R in
   mk_ag W1 dW1 mW1) =
  spec_ag_elem (98 / 100) (1 / 1000) alpha e st.
Proof.
  cbv zeta. unfold spec_ag_elem, ADA_RHO, ADA_EPS. rewrite upd_same.
  replace (98 / 100 * ag_mW st e + (1 - 98 / 100) * ag_dW st e * ag_dW st e)%R
    with (98 / 100 * ag_mW st e + (1 - 98 / 100) * ag_dW st e ^ 2)%R by ring.
  f_equal. f_equal. unfold Rdiv. ring.
Qed.

Lemma ag_1d_run sp_size sp_idx row_idx st alpha :
  cy_ag_update_1d sp_size sp_idx row_idx st alpha =
  spec_ag_run alpha (ag_addressed_1d sp_size sp_idx row_idx) st.
Proof.
  unfold cy_ag_update_1d, spec_ag_run, spec_ag_run_with, ag_addressed_1d.
  rewrite for_range_fold, fold_left_map.
  apply fold_left_ext; intros s a. apply ag_body_spec.
Qed.

Lemma ag_2d_run sp_size sp_idx row_idx st alpha vec_dim :
  cy_ag_update_2d sp_size sp_idx row_idx st alpha vec_dim =
  spec_ag_run alpha (ag_addressed_2d sp_size sp_idx row_idx vec_dim) st.
Proof.
  unfold cy_ag_update_2d, spec_ag_run, spec_ag_run_with, ag_addressed_2d.
  rewrite for_range_fold, fold_left_flat_map.
  apply fold_left_ext; intros s a.
  rewrite for_range_fold, fold_left_map.
  apply fold_left_ext; intros t v. apply ag_body_spec.
Qed.

(** *** The recurrence over a sequence of elements, for any constants *)

Section AgRun.
Variables rho eps alpha : R.

Lemma ag_run_frame es st e :
  ~ In e es ->
  ag_W (spec_ag_run_with rho eps alpha es st) e = ag_W st e
  /\ ag_dW (spec_ag_run_with rho eps alpha es st) e = ag_dW st e
  /\ ag_mW (spec_ag_run_with rho eps alpha es st) e = ag_mW st e.
Proof.
  revert st. induction es as [|a es IH]; intros st Hn; [now auto|].
  simpl in Hn. cbn [spec_ag_run_with fold_left].
  destruct (IH (spec_ag_elem rho eps alpha a st)) as (HW & HD & HM); [tauto|].
  fold (spec_ag_run_with rho eps alpha es (spec_ag_elem rho eps alpha a st)).
  rewrite HW, HD, HM. unfold spec_ag_elem. cbn.
  rewrite !upd_other by (intros ->; tauto). auto.
Qed.

Lemma ag_run_zero_kept es st e :
  ag_dW st e = 0%R -> ag_dW (spec_ag_run_with rho eps alpha es st) e = 0%R.
Proof.
  revert st. induction es as [|a es IH]; intros st H0; [exact H0|].
  cbn [spec_ag_run_with fold_left]. apply IH. unfold spec_ag_elem. cbn.
  unfold upd. destruct (e =? a); auto.
Qed.

Lemma ag_run_zeroes es st e :
  In e es -> ag_dW (spec_ag_run_with rho eps alpha es st) e = 0%R.
Proof.
  revert st. induction es as [|a es IH]; intros st Hin; [contradiction|].
  cbn [spec_ag_run_with fold_left].
  destruct (in_dec Z.eq_dec e es) as [Hi|Hni]; [now apply IH|].
  destruct Hin as [->|Hin]; [|contradiction].
  apply ag_run_zero_kept. unfold spec_ag_elem. cbn. apply upd_same.
Qed.

Lemma ag_step_zero_grad e st :
  ag_dW st e = 0%R ->
  ag_W (spec_ag_elem rho eps alpha e st) = ag_W st
  /\ ag_dW (spec_ag_elem rho eps alpha e st) = ag_dW st.
Proof.
  intros H0. unfold spec_ag_elem. cbn. rewrite H0.
  split; apply functional_extensionality; intros p; unfold upd;
    destruct (Z.eqb_spec p e) as [->|_]; auto.
  unfold Rdiv. ring.
Qed.

Lemma ag_run_zero_grad es st :
  (forall e, In e es -> ag_dW st e = 0%R) ->
  ag_W (spec_ag_run_with rho eps alpha es st) = ag_W st.
Proof.
  revert st. induction es as [|a es IH]; intros st H0; [reflexivity|].
  cbn [spec_ag_run_with fold_left].
  destruct (ag_step_zero_grad a st) as [HW HD]; [apply H0; now left|].
  fold (spec_ag_run_with rho eps alpha es (spec_ag_elem rho eps alpha a st)).
  rewrite IH, HW; [reflexivity|].
  intros e He. rewrite HD. apply H0. now right.
Qed.

Lemma ag_run_nodup es st e :
  NoDup es -> In e es ->
  let moment := (rho * ag_mW st e + (1 - rho) * ag_dW st e ^ 2)%R in
  ag_mW (spec_ag_run_with rho eps alpha es st) e = moment
  /\ ag_W (spec_ag_run_with rho eps alpha es st) e =
     (ag_W st e - alpha * ag_dW st e / (sqrt moment + eps))%R.
Proof.
  intros Hnd. revert st. induction Hnd as [|a es Hna Hnd IH]; intros st Hin;
    [contradiction|].
  cbn [spec_ag_run_with fold_left].
  fold (spec_ag_run_with rho eps alpha es (spec_ag_elem rho eps alpha a st)).
  destruct Hin as [->|Hin].
  - destruct (ag_run_frame es (spec_ag_elem rho eps alpha e st) e Hna) as (HW & _ & HM).
    rewrite HW, HM. unfold spec_ag_elem. cbn. now rewrite !upd_same.
  - assert (Hne : e <> a) by (intros ->; contradiction).
    specialize (IH (spec_ag_elem rho eps alpha a st) Hin). cbv zeta in IH.
    unfold spec_ag_elem in IH. cbn in IH.
    rewrite !upd_other in IH by exact Hne. exact IH.
Qed.
End AgRun.

Lemma ag_run_summary (alpha : R) (es : list Z) (st : ag_state) :
  let st' := spec_ag_run alpha es st in
  (forall e, In e es -> ag_dW st' e = 0%R)
  /\ (forall e, ~ In e es ->
        ag_W st' e = ag_W st e /\ ag_dW st' e = ag_dW st e
        /\ ag_mW st' e = ag_mW st e)
  /\ (forall e, NoDup es -> In e es ->
        let moment := (ADA_RHO * ag_mW st e + (1 - ADA_RHO) * ag_dW st e ^ 2)%R in
        ag_mW st' e = moment
        /\ ag_W st' e =
           (ag_W st e - alpha * ag_dW st e / (sqrt moment + ADA_EPS))%R)
  /\ (forall e, NoDup es -> In e es -> ag_mW st e = 0%R ->
        ag_mW st' e = ((1 - ADA_RHO) * ag_dW st e ^ 2)%R)
  /\ (forall alpha', ag_W (spec_ag_run alpha' es st') = ag_W st').
Proof.
  cbv zeta. unfold spec_ag_run, ADA_RHO, ADA_EPS. repeat split.
  - intros e He. now apply ag_run_zeroes.
  - now apply ag_run_frame.
  - now apply ag_run_frame.
  - now apply ag_run_frame.
  - now apply ag_run_nodup.
  - now apply ag_run_nodup.
  - intros e Hnd He H0.
    destruct (ag_run_nodup (98 / 100) (1 / 1000) alpha es st e Hnd He) as [HM _].
    cbv zeta in HM. rewrite HM, H0. ring.
  - intros alpha'. apply ag_run_zero_grad. intros e He. now apply ag_run_zeroes.
Qed.

(** C2.  Both variants of the sparse adaptive update apply, to the elements
    they address and in loop order, the recurrence
    [moment = rho * moment + (1 - rho) * grad^2],
    [param -= alpha * grad / (sqrt moment + eps)], [grad = 0] with
    [rho = 0.98] and [eps = 0.001].  After a call every addressed element has
    a zero gradient and every other element is untouched; an element
    addressed once holds exactly the updated moment and parameter, hence
    [(1 - rho) * g0^2] when its moment was 0; and a second call on the same
    elements leaves the parameters as the first call left them. *)
Theorem ag_sparse_update :
  forall sp_size sp_idx row_idx st alpha vec_dim,
    let es1 := ag_addressed_1d sp_size sp_idx row_idx in
    let es2 := ag_addressed_2d sp_size sp_idx row_idx vec_dim in
    let st1 := cy_ag_update_1d sp_size sp_idx row_idx st alpha in
    let st2 := cy_ag_update_2d sp_size sp_idx row_idx st alpha vec_dim in
    (ADA_RHO = (98 / 100)%R /\ ADA_EPS = (1 / 1000)%R)
    /\ (st1 = spec_ag_run alpha es1 st /\ st2 = spec_ag_run alpha es2 st)
    /\ ((forall e, In e es1 -> ag_dW st1 e = 0%R)
        /\ (forall e, In e es2 -> ag_dW st2 e = 0%R))
    /\ ((forall e, ~ In e es1 ->
           ag_W st1 e = ag_W st e /\ ag_dW st1 e = ag_dW st e
           /\ ag_mW st1 e = ag_mW st e)
        /\ (forall e, ~ In e es2 ->
              ag_W st2 e = ag_W st e /\ ag_dW st2 e = ag_dW st e
              /\ ag_mW st2 e = ag_mW st e))
    /\ ((forall e, NoDup es1 -> In e es1 ->
           let moment := (ADA_RHO * ag_mW st e + (1 - ADA_RHO) * ag_dW st e ^ 2)%R in
           ag_mW st1 e = moment
           /\ ag_W st1 e =
              (ag_W st e - alpha * ag_dW st e / (sqrt moment + ADA_EPS))%R)
        /\ (forall e, NoDup es2 -> In e es2 ->
              let moment := (ADA_RHO * ag_mW st e + (1 - ADA_RHO) * ag_dW st e ^ 2)%R in
              ag_mW st2 e = moment
              /\ ag_W st2 e =
                 (ag_W st e - alpha * ag_dW st e / (sqrt moment + ADA_EPS))%R))
    /\ ((forall e, NoDup es1 -> In e es1 -> ag_mW st e = 0%R ->
           ag_mW st1 e = ((1 - ADA_RHO) * ag_dW st e ^ 2)%R)
        /\ (forall e, NoDup es2 -> In e es2 -> ag_mW st e = 0%R ->
              ag_mW st2 e = ((1 - ADA_RHO) * ag_dW st e ^ 2)%R))
    /\ ((forall alpha',
           ag_W (cy_ag_update_1d sp_size sp_idx row_idx st1 alpha') = ag_W st1)
        /\ (forall alpha',
              ag_W (cy_ag_update_2d sp_size sp_idx row_idx st2 alpha' vec_dim)
              = ag_W st2)).
Proof.
  intros. subst st1 st2.
  destruct (ag_run_summary alpha es1 st) as (A1 & B1 & C1 & D1 & E1).
  destruct (ag_run_summary alpha es2 st) as (A2 & B2 & C2 & D2 & E2).
  cbv zeta in *.
  assert (R1 := ag_1d_run sp_size sp_idx row_idx st alpha).
  assert (R2 := ag_2d_run sp_size sp_idx row_idx st alpha vec_dim).
  fold es1 in R1. fold es2 in R2.
  split; [split; reflexivity|].
  split; [split; assumption|].
  rewrite R1, R2.
  split; [split; assumption|].
  split; [split; assumption|].
  split; [split; assumption|].
  split; [split; assumption|].
  split; intros alpha'.
  - rewrite ag_1d_run. apply E1.
  - rewrite ag_2d_run. apply E2.
Qed.

Lemma ag_sparse_update_witness :
  let st := mk_ag (fun _ => 1%R) (fun _ => 2%R) (fun _ => 0%R) in
  ag_mW (cy_ag_update_1d 1 (fun _ => 0) (fun _ => 5) st (1 / 2)%R) 5
  = ((1 - ADA_RHO) * 2 ^ 2)%R
  /\ ag_dW (cy_ag_update_1d 1 (fun _ => 0) (fun _ => 5) st (1 / 2)%R) 5 = 0%R.
Proof.
  intros st.
  destruct (ag_sparse_update 1 (fun _ => 0) (fun _ => 5) st (1 / 2)%R 1)
    as (_ & _ & [Z1 _] & _ & _ & [M1 _] & _).
  split.
  - apply (M1 5).
    + repeat constructor. simpl. tauto.
    + simpl. tauto.
    + reflexivity.
  - apply (Z1 5). simpl. tauto.
Defined.

(** ** Scatter-accumulate *)

Lemma lut_loop_source (n : nat) sp_idx row_idx vec_dim st :
  lut_dLdY
    (loop n (fun sp_i st =>
       let i := sp_idx sp_i in
       let j := row_idx i in
       let row1 := u32 (i * vec_dim) in
       let row2 := u32 (j * vec_dim) in
       mk_lut (lut_dLdY st)
         (saxpy vec_dim ONEF (lut_dLdY st) row1 (lut_dW st) row2)) st)
  = lut_dLdY st.
Proof. induction n as [|m IH]; [reflexivity|exact IH]. Qed.

Lemma lut_loop_target (n : nat) sp_idx row_idx vec_dim st p :
  lut_dW
    (loop n (fun sp_i st =>
       let i := sp_idx sp_i in
       let j := row_idx i in
       let row1 := u32 (i * vec_dim) in
       let row2 := u32 (j * vec_dim) in
       mk_lut (lut_dLdY st)
         (saxpy vec_dim ONEF (lut_dLdY st) row1 (lut_dW st) row2)) st) p
  = (lut_dW st p +
     loop n (fun sp_i acc =>
       (acc + lut_contrib sp_idx row_idx (lut_dLdY st) vec_dim sp_i p)%R) 0%R)%R.
Proof.
  induction n as [|m IH]; [cbn [loop]; ring|].
  cbn [loop].
  assert (Hs := lut_loop_source m sp_idx row_idx vec_dim st).
  set (s := loop m _ st) in *.
  cbv zeta. cbn [lut_dW lut_dLdY].
  rewrite saxpy_closed, Hs. unfold axpy_row.
  rewrite IH. set (acc := loop m _ 0%R).
  unfold lut_contrib, ONEF. cbv zeta.
  destruct (in_row _ _ p); ring.
Qed.

(** C9.  [cy_lut_bp] adds, for every selected item, the item's [dLdY] row to
    row [row_idx[item]] of [dW]: each element of [dW] ends as its old value
    plus the sum of what the items contribute to it, so two items that share
    a row both contribute; [dLdY] is returned unchanged. *)
Theorem lut_scatter_accumulate :
  forall sp_size sp_idx row_idx st vec_dim,
    let st' := cy_lut_bp sp_size sp_idx row_idx st vec_dim in
    (forall p,
       lut_dW st' p =
       (lut_dW st p + lut_sum sp_size sp_idx row_idx (lut_dLdY st) vec_dim p)%R)
    /\ lut_dLdY st' = lut_dLdY st
    /\ (forall d,
          sp_size = 2 -> row_idx (sp_idx 0) = row_idx (sp_idx 1) ->
          0 <= d < vec_dim ->
          lut_dW st' (u32 (row_idx (sp_idx 0) * vec_dim) + d) =
          (lut_dW st (u32 (row_idx (sp_idx 0) * vec_dim) + d)%Z
           + lut_dLdY st (u32 (sp_idx 0 * vec_dim) + d)%Z
           + lut_dLdY st (u32 (sp_idx 1 * vec_dim) + d)%Z)%R).
Proof.
  intros. subst st'. unfold cy_lut_bp, for_range.
  split; [|split].
  - intros p. rewrite lut_loop_target. reflexivity.
  - apply lut_loop_source.
  - intros d -> Hrow Hd. rewrite lut_loop_target.
    change (Z.to_nat 2) with 2%nat. cbn [loop Z.of_nat Pos.of_succ_nat].
    unfold lut_contrib. cbv zeta. rewrite <- Hrow.
    replace (u32 (row_idx (sp_idx 0) * vec_dim) + d
             - u32 (row_idx (sp_idx 0) * vec_dim)) with d by lia.
    unfold in_row.
    destruct (Z.leb_spec (u32 (row_idx (sp_idx 0) * vec_dim))
                (u32 (row_idx (sp_idx 0) * vec_dim) + d)); [|lia].
    destruct (Z.ltb_spec (u32 (row_idx (sp_idx 0) * vec_dim) + d)
                (u32 (row_idx (sp_idx 0) * vec_dim) + vec_dim)); [|lia].
    cbn [andb]. ring.
Qed.

Lemma lut_scatter_accumulate_witness :
  let st := mk_lut (fun p => IZR p) (fun _ => 7%R) in
  lut_dW (cy_lut_bp 2 (fun k => k) (fun _ => 3) st 2) (u32 (3 * 2) + 1) =
  (7 + IZR (u32 (0 * 2) + 1) + IZR (u32 (1 * 2) + 1))%R.
Proof.
  intros st.
  destruct (lut_scatter_accumulate 2 (fun k => k) (fun _ => 3) st 2)
    as (_ & _ & H).
  apply (H 1); [reflexivity | reflexivity | lia].
Defined.

(** ** Sign matrix of the contrastive-ratio kernel *)

(** C10.  The contrastive-ratio kernel never reads [pn_sign]: two calls that
    differ only in the sign matrix return the same loss matrix and the same
    gradient accumulators, for both variants and through the entry point. *)
Theorem acl_sign_noninterference :
  forall sp_size sp_idx pn_size pn_keys (pn_sign1 pn_sign2 : buf) X W b st
         do_grad vec_dim uninit g,
    cy_acl_ff_bp0 sp_size sp_idx pn_size pn_keys pn_sign1 X W b st do_grad
      vec_dim uninit
    = cy_acl_ff_bp0 sp_size sp_idx pn_size pn_keys pn_sign2 X W b st do_grad
        vec_dim uninit
    /\ cy_acl_ff_bp1 sp_size sp_idx pn_size pn_keys pn_sign1 X W b st do_grad
         vec_dim uninit
       = cy_acl_ff_bp1 sp_size sp_idx pn_size pn_keys pn_sign2 X W b st do_grad
           vec_dim uninit
    /\ acl_ff_bp_pyx g sp_size sp_idx pn_size pn_keys pn_sign1 X W b st do_grad
         vec_dim uninit
       = acl_ff_bp_pyx g sp_size sp_idx pn_size pn_keys pn_sign2 X W b st do_grad
           vec_dim uninit.
Proof. intros. repeat split. Qed.

(** ** Return-width self-test *)




(** ** Gradient coefficients of the contrastive-ratio kernel *)




(** ** The [do_grad] flag *)

Lemma spec_w2v_no_grad sp_size sp_idx anc_keys pn_size pn_keys pn_sign Wa Wc b
    vec_dim st :
  w2v_grads_unchanged st
    (spec_w2v false sp_size sp_idx anc_keys pn_size pn_keys pn_sign Wa Wc b
       vec_dim st).
Proof.
  unfold spec_w2v, for_range.
  apply (loop_preserves (w2v_grads_unchanged st)); [now repeat split|].
  intros k t Ht. cbv zeta.
  apply (loop_preserves (w2v_grads_unchanged st)); [exact Ht|].
  intros j u Hu. exact Hu.
Qed.

Lemma spec_nsl_no_grad sp_size sp_idx pn_size pn_keys pn_sign X W b vec_dim st :
  lyr_grads_unchanged st
    (spec_nsl false sp_size sp_idx pn_size pn_keys pn_sign X W b vec_dim st).
Proof.
  unfold spec_nsl, for_range.
  apply (loop_preserves (lyr_grads_unchanged st)); [now repeat split|].
  intros k t Ht. cbv zeta.
  apply (loop_preserves (lyr_grads_unchanged st)); [exact Ht|].
  intros j u Hu. destruct (_ <=? _); exact Hu.
Qed.

Lemma spec_acl_no_grad sp_size sp_idx pn_size pn_keys X W b vec_dim st :
  lyr_grads_unchanged st
    (spec_acl false sp_size sp_idx pn_size pn_keys X W b vec_dim st).
Proof.
  unfold spec_acl, for_range.
  apply (loop_preserves (lyr_grads_unchanged st)); [now repeat split|].
  intros k t Ht. unfold spec_acl_row, for_range. cbv zeta.
  apply (loop_preserves (lyr_grads_unchanged st)); [exact Ht|].
  intros j u Hu. exact Hu.
Qed.

Lemma not_one_eqb (d : Z) : d <> 1 -> (d =? 1) = false.
Proof. intros H. now apply Z.eqb_neq. Qed.

(** C8, as stated, fails for a nonzero flag other than 1: in the one-pair
    call below (all tables zero, sign +1), [do_grad = 2] leaves the bias
    gradient at 0, whereas the
    gradient step of the kernel ([do_grad = 1]) adds [g = -1/2] to it. *)
Lemma do_grad_two_counterexample :
  let st0 := mk_w2v (fun _ => 0%R) (fun _ => 0%R) (fun _ => 0%R) (fun _ => 0%R) in
  let run d := cy_w2v_ff_bp0 1 (fun _ => 0) (fun _ => 0) 1 (fun _ => 0)
                 (fun _ => 1%R) (fun _ => 0%R) (fun _ => 0%R) (fun _ => 0%R)
                 st0 d 1 in
  2 <> 0
  /\ w2v_db (run 2) 0 = 0%R
  /\ w2v_db (run 1) 0 = (- 1 / 2)%R
  /\ run 2 <> run 1.
Proof.
  cbv zeta.
  assert (A : w2v_db (cy_w2v_ff_bp0 1 (fun _ => 0) (fun _ => 0) 1 (fun _ => 0)
                 (fun _ => 1%R) (fun _ => 0%R) (fun _ => 0%R) (fun _ => 0%R)
                 (mk_w2v (fun _ => 0%R) (fun _ => 0%R) (fun _ => 0%R) (fun _ => 0%R))
                 2 1) 0 = 0%R).
  { eval_kernel. reflexivity. }
  assert (B : w2v_db (cy_w2v_ff_bp0 1 (fun _ => 0) (fun _ => 0) 1 (fun _ => 0)
                 (fun _ => 1%R) (fun _ => 0%R) (fun _ => 0%R) (fun _ => 0%R)
                 (mk_w2v (fun _ => 0%R) (fun _ => 0%R) (fun _ => 0%R) (fun _ => 0%R))
                 1 1) 0 = (- 1 / 2)%R).
  { eval_kernel. exp_at_zero. field. }
  split; [lia|split; [exact A|split; [exact B|]]].
  intros E. rewrite E, B in A. lra.
Qed.

(** C8, amended.  The kernels test [do_grad == 1].  For every other value of
    the flag (0 included) a call leaves all gradient accumulators unchanged
    and only writes losses; for [do_grad = 1] a call performs the gradient
    accumulations of its kernel. *)
Theorem do_grad_semantics :
  forall sp_size sp_idx anc_keys pn_size pn_keys pn_sign A B b stw stl do_grad
         vec_dim uninit,
    (do_grad <> 1 ->
     w2v_grads_unchanged stw
       (cy_w2v_ff_bp0 sp_size sp_idx anc_keys pn_size pn_keys pn_sign A B b stw
          do_grad vec_dim)
     /\ w2v_grads_unchanged stw
          (cy_w2v_ff_bp1 sp_size sp_idx anc_keys pn_size pn_keys pn_sign A B b
             stw do_grad vec_dim)
     /\ lyr_grads_unchanged stl
          (cy_nsl_ff_bp0 sp_size sp_idx pn_size pn_keys pn_sign A B b stl
             do_grad vec_dim)
     /\ lyr_grads_unchanged stl
          (cy_nsl_ff_bp1 sp_size sp_idx pn_size pn_keys pn_sign A B b stl
             do_grad vec_dim)
     /\ lyr_grads_unchanged stl
          (cy_acl_ff_bp0 sp_size sp_idx pn_size pn_keys pn_sign A B b stl
             do_grad vec_dim uninit)
     /\ lyr_grads_unchanged stl
          (cy_acl_ff_bp1 sp_size sp_idx pn_size pn_keys pn_sign A B b stl
             do_grad vec_dim uninit))
    /\ cy_w2v_ff_bp0 sp_size sp_idx anc_keys pn_size pn_keys pn_sign A B b stw
         1 vec_dim
       = spec_w2v true sp_size sp_idx anc_keys pn_size pn_keys pn_sign A B b
           vec_dim stw
    /\ cy_w2v_ff_bp1 sp_size sp_idx anc_keys pn_size pn_keys pn_sign A B b stw
         1 vec_dim
       = spec_w2v true sp_size sp_idx anc_keys pn_size pn_keys pn_sign A B b
           vec_dim stw
    /\ cy_nsl_ff_bp0 sp_size sp_idx pn_size pn_keys pn_sign A B b stl 1 vec_dim
       = spec_nsl true sp_size sp_idx pn_size pn_keys pn_sign A B b vec_dim stl
    /\ cy_nsl_ff_bp1 sp_size sp_idx pn_size pn_keys pn_sign A B b stl 1 vec_dim
       = spec_nsl true sp_size sp_idx pn_size pn_keys pn_sign A B b vec_dim stl
    /\ cy_acl_ff_bp0 sp_size sp_idx pn_size pn_keys pn_sign A B b stl 1 vec_dim
         uninit
       = spec_acl true sp_size sp_idx pn_size pn_keys A B b vec_dim stl
    /\ cy_acl_ff_bp1 sp_size sp_idx pn_size pn_keys pn_sign A B b stl 1 vec_dim
         uninit
       = spec_acl true sp_size sp_idx pn_size pn_keys A B b vec_dim stl.
Proof.
  intros. split; [intros Hd|].
  - unfold cy_w2v_ff_bp0, cy_w2v_ff_bp1, cy_nsl_ff_bp0, cy_nsl_ff_bp1,
      cy_acl_ff_bp0, cy_acl_ff_bp1.
    rewrite !w2v_kernel_spec, !nsl_kernel_spec, !acl_kernel_spec by reflexivity.
    rewrite (not_one_eqb do_grad Hd).
    repeat split;
      first [apply spec_w2v_no_grad | apply spec_nsl_no_grad | apply spec_acl_no_grad].
  - unfold cy_w2v_ff_bp0, cy_w2v_ff_bp1, cy_nsl_ff_bp0, cy_nsl_ff_bp1,
      cy_acl_ff_bp0, cy_acl_ff_bp1.
    rewrite !w2v_kernel_spec, !nsl_kernel_spec, !acl_kernel_spec by reflexivity.
    repeat split.
Qed.

Lemma do_grad_semantics_witness :
  let stw := mk_w2v (fun _ => 0%R) (fun _ => 0%R) (fun _ => 0%R) (fun _ => 0%R) in
  w2v_grads_unchanged stw
    (cy_w2v_ff_bp0 1 (fun _ => 0) (fun _ => 0) 1 (fun _ => 0) (fun _ => 1%R)
       (fun _ => 0%R) (fun _ => 0%R) (fun _ => 0%R) stw 2 1)
  /\ w2v_grads_unchanged stw
       (cy_w2v_ff_bp0 1 (fun _ => 0) (fun _ => 0) 1 (fun _ => 0) (fun _ => 1%R)
          (fun _ => 0%R) (fun _ => 0%R) (fun _ => 0%R) stw 0 1).
Proof.
  intros stw. split.
  - apply (do_grad_semantics 1 (fun _ => 0) (fun _ => 0) 1 (fun _ => 0)
             (fun _ => 1%R) (fun _ => 0%R) (fun _ => 0%R) (fun _ => 0%R) stw
             (mk_lyr (fun _ => 0%R) (fun _ => 0%R) (fun _ => 0%R) (fun _ => 0%R))
             2 1 (mk_acl_locals 0 0 0%R)).
    lia.
  - apply (do_grad_semantics 1 (fun _ => 0) (fun _ => 0) 1 (fun _ => 0)
             (fun _ => 1%R) (fun _ => 0%R) (fun _ => 0%R) (fun _ => 0%R) stw
             (mk_lyr (fun _ => 0%R) (fun _ => 0%R) (fun _ => 0%R) (fun _ => 0%R))
             0 1 (mk_acl_locals 0 0 0%R)).
    lia.
Defined.

(** ** The loss accumulator *)

Lemma fold_left_project {S T A : Type} (pr : S -> T) (f : S -> A -> S)
    (g : T -> A -> T) (l : list A) (s : S) :
  (forall s a, pr (f s a) = g (pr s) a) ->
  pr (fold_left f l s) = fold_left g l (pr s).
Proof.
  intros E. revert s. induction l as [|a l IH]; intros s; simpl; auto.
  now rewrite IH, E.
Qed.

Lemma nested_project {S T A : Type} (pr : S -> T) (step : T -> A -> T)
    (h : Z -> Z -> list A) (body : Z -> Z -> S -> S) (n m : Z) (s : S) :
  (forall i j s, pr (body i j s) = fold_left step (h i j) (pr s)) ->
  pr (for_range n (fun i s => for_range m (body i) s) s) =
  fold_left step (flat_map (fun i => flat_map (h i) (range m)) (range n)) (pr s).
Proof.
  intros E. rewrite for_range_fold, fold_left_flat_map.
  apply fold_left_project. intros t i.
  rewrite for_range_fold, fold_left_flat_map.
  apply fold_left_project. intros u j. apply E.
Qed.

Lemma add_all_at ls L :
  add_all ls L 0 = (L 0%Z + fold_left Rplus ls 0)%R
  /\ forall p, p <> 0 -> add_all ls L p = L p.
Proof.
  unfold add_all. revert L. induction ls as [|l ls IH]; intros L.
  - simpl. split; [ring|auto].
  - cbn [fold_left]. destruct (IH (upd L 0 (L 0%Z + l)%R)) as [H0 Hp]. split.
    + rewrite H0, upd_same.
      assert (G : forall xs a, fold_left Rplus xs a = (a + fold_left Rplus xs 0)%R).
      { induction xs as [|x xs IHx]; intros a; simpl; [ring|].
        rewrite IHx, (IHx (0 + x)%R). ring. }
      rewrite (G ls (0 + l)%R). ring.
    + intros p Hne. rewrite Hp by exact Hne. now apply upd_other.
Qed.

Lemma store_all_written ws L L0 p :
  In p (map fst ws) -> store_all ws L p = store_all ws L0 p.
Proof.
  unfold store_all. revert L L0. induction ws as [|w ws IH]; intros L L0 Hin;
    [contradiction|].
  cbn [fold_left].
  destruct (in_dec Z.eq_dec p (map fst ws)) as [Hi|Hni]; [now apply IH|].
  destruct Hin as [Hw|Hin]; [|contradiction].
  assert (F : forall M, fold_left (fun L w => upd L (fst w) (snd w)) ws M p = M p).
  { clear - Hni. induction ws as [|v ws IH]; intros M; [reflexivity|].
    cbn [fold_left]. rewrite IH.
    - apply upd_other. intros E. apply Hni. left. now symmetry.
    - intros Hin. apply Hni. now right. }
  rewrite !F, <- Hw. now rewrite !upd_same.
Qed.

Lemma store_all_unwritten ws L p :
  ~ In p (map fst ws) -> store_all ws L p = L p.
Proof.
  unfold store_all. revert L. induction ws as [|w ws IH]; intros L Hn;
    [reflexivity|].
  cbn [fold_left]. rewrite IH.
  - apply upd_other. intros E. apply Hn. left. now symmetry.
  - intros Hin. apply Hn. now right.
Qed.

Lemma w2v_loss_projection sp_size sp_idx anc_keys pn_size pn_keys pn_sign Wa Wc b
    vec_dim r st :
  w2v_L (spec_w2v r sp_size sp_idx anc_keys pn_size pn_keys pn_sign Wa Wc b
           vec_dim st) =
  add_all (w2v_losses sp_size sp_idx anc_keys pn_size pn_keys pn_sign Wa Wc b
             vec_dim) (w2v_L st).
Proof.
  unfold spec_w2v, w2v_losses, add_all.
  apply (nested_project w2v_L
           (fun L l => upd L 0 (L 0%Z + l)%R)
           (fun sp_i j =>
              let i := to_int (sp_idx sp_i) in
              let a_off := u32 (anc_keys i * vec_dim) in
              let t_key := pn_keys (i * pn_size + j) in
              [spec_loss (pn_sign (i * pn_size + j))
                 (spec_score vec_dim Wa a_off Wc (u32 (t_key * vec_dim)) b t_key)])).
  intros i j s. unfold spec_w2v_pair, spec_pair_grads.
  destruct r; reflexivity.
Qed.

Lemma nsl_loss_projection sp_size sp_idx pn_size pn_keys pn_sign X W b vec_dim r st :
  lyr_L (spec_nsl r sp_size sp_idx pn_size pn_keys pn_sign X W b vec_dim st) =
  store_all (nsl_loss_writes sp_size sp_idx pn_size pn_keys pn_sign X W b vec_dim)
    (lyr_L st).
Proof.
  unfold spec_nsl, nsl_loss_writes, store_all.
  apply (nested_project lyr_L
           (fun L w => upd L (fst w) (snd w))
           (fun sp_i j =>
              let x_key := sp_idx sp_i in
              let x_off := u32 (x_key * vec_dim) in
              let slot := u32 (x_key * pn_size + j) in
              let t_key := pn_keys slot in
              if MAX_HSM_KEY <=? t_key then []
              else [(slot,
                     spec_loss (pn_sign slot)
                       (spec_score vec_dim X x_off W (u32 (t_key * vec_dim)) b
                          t_key))])).
  intros i j s. cbv zeta.
  destruct (_ <=? _); [reflexivity|].
  unfold spec_nsl_pair, spec_pair_grads. destruct r; reflexivity.
Qed.

Lemma acl_loss_projection sp_size sp_idx pn_size pn_keys X W b vec_dim r st :
  lyr_L (spec_acl r sp_size sp_idx pn_size pn_keys X W b vec_dim st) =
  store_all (acl_loss_writes sp_size sp_idx pn_size pn_keys X W b vec_dim)
    (lyr_L st).
Proof.
  unfold spec_acl, spec_acl_row, acl_loss_writes, store_all.
  apply (nested_project lyr_L
           (fun L w => upd L (fst w) (snd w))
           (fun sp_i n =>
              let x_key := sp_idx sp_i in
              let x_off := u32 (x_key * vec_dim) in
              let pos_key := pn_keys (u32 (x_key * pn_size + 0)) in
              let f_pos := spec_f_pos vec_dim X x_off W b
                             (u32 (pos_key * vec_dim)) pos_key in
              let j := n + 1 in
              let neg_key := pn_keys (u32 (x_key * pn_size + j)) in
              let f_neg :=
                (acl_k * exp (acl_a * blas_dot vec_dim X x_off W
                                        (u32 (neg_key * vec_dim)) + b neg_key))%R in
              [(u32 (x_key * pn_size + j),
                (- ln (f_pos / (f_pos + f_neg + acl_c)))%R)])).
  intros i j s. unfold spec_acl_neg. cbv zeta.
  destruct r; reflexivity.
Qed.

(** C6, as stated, fails for the shared-table kernel: with the loss entry at
    1 before the call, the one-slot call below (all tables zero, sign +1)
    leaves [log 2] (the slot's
    loss) in the entry, not [1 + log 2]. *)
Lemma loss_overwrite_counterexample :
  let st0 := mk_lyr (fun _ => 0%R) (fun _ => 0%R) (fun _ => 0%R) (fun _ => 1%R) in
  let st' := cy_nsl_ff_bp0 1 (fun _ => 0) 1 (fun _ => 0) (fun _ => 1%R)
               (fun _ => 0%R) (fun _ => 0%R) (fun _ => 0%R) st0 0 1 in
  let contribution := spec_loss 1 (spec_score 1 (fun _ => 0%R) 0 (fun _ => 0%R) 0
                                     (fun _ => 0%R) 0) in
  contribution = ln 2
  /\ lyr_L st' 0 = contribution
  /\ lyr_L st' 0 <> (lyr_L st0 0%Z + contribution)%R.
Proof.
  cbv zeta.
  assert (C : spec_loss 1 (spec_score 1 (fun _ => 0%R) 0 (fun _ => 0%R) 0
                             (fun _ => 0%R) 0) = ln 2).
  { eval_kernel. exp_at_zero. now replace (1 + 1)%R with 2%R by ring. }
  assert (A : lyr_L (cy_nsl_ff_bp0 1 (fun _ => 0) 1 (fun _ => 0) (fun _ => 1%R)
                 (fun _ => 0%R) (fun _ => 0%R) (fun _ => 0%R)
                 (mk_lyr (fun _ => 0%R) (fun _ => 0%R) (fun _ => 0%R) (fun _ => 1%R))
                 0 1) 0 = ln 2).
  { eval_kernel. exp_at_zero. now replace (1 + 1)%R with 2%R by ring. }
  rewrite C, A. cbn [lyr_L]. repeat split. lra.
Qed.

(** C6, amended.  The two-table kernel adds: after a call, [L[0]] is its old
    value plus the sum of the losses of the call, and no other entry changes.
    The shared-table and the contrastive-ratio kernels store: the loss matrix
    after a call is the old one with the loss of each processed slot written
    into the slot's entry, in loop order.  An entry that is written no longer
    depends on what it held before the call; an entry that is not written
    keeps its value. *)
Theorem loss_accumulator_updates :
  forall sp_size sp_idx anc_keys pn_size pn_keys pn_sign A B b stw stl do_grad
         vec_dim uninit,
    let losses := w2v_losses sp_size sp_idx anc_keys pn_size pn_keys pn_sign A B b
                    vec_dim in
    let nsl_ws := nsl_loss_writes sp_size sp_idx pn_size pn_keys pn_sign A B b
                    vec_dim in
    let acl_ws := acl_loss_writes sp_size sp_idx pn_size pn_keys A B b vec_dim in
    let w0 := cy_w2v_ff_bp0 sp_size sp_idx anc_keys pn_size pn_keys pn_sign A B b
                stw do_grad vec_dim in
    let w1 := cy_w2v_ff_bp1 sp_size sp_idx anc_keys pn_size pn_keys pn_sign A B b
                stw do_grad vec_dim in
    (w2v_L w0 0 = (w2v_L stw 0%Z + fold_left Rplus losses 0)%R
     /\ w2v_L w1 0 = (w2v_L stw 0%Z + fold_left Rplus losses 0)%R
     /\ forall p, p <> 0 -> w2v_L w0 p = w2v_L stw p /\ w2v_L w1 p = w2v_L stw p)
    /\ (lyr_L (cy_nsl_ff_bp0 sp_size sp_idx pn_size pn_keys pn_sign A B b stl
                 do_grad vec_dim) = store_all nsl_ws (lyr_L stl)
        /\ lyr_L (cy_nsl_ff_bp1 sp_size sp_idx pn_size pn_keys pn_sign A B b stl
                    do_grad vec_dim) = store_all nsl_ws (lyr_L stl))
    /\ (lyr_L (cy_acl_ff_bp0 sp_size sp_idx pn_size pn_keys pn_sign A B b stl
                 do_grad vec_dim uninit) = store_all acl_ws (lyr_L stl)
        /\ lyr_L (cy_acl_ff_bp1 sp_size sp_idx pn_size pn_keys pn_sign A B b stl
                    do_grad vec_dim uninit) = store_all acl_ws (lyr_L stl))
    /\ (forall ws L L0 p,
          In p (map fst ws) -> store_all ws L p = store_all ws L0 p)
    /\ (forall ws L p, ~ In p (map fst ws) -> store_all ws L p = L p).
Proof.
  intros. subst w0 w1 losses nsl_ws acl_ws.
  unfold cy_w2v_ff_bp0, cy_w2v_ff_bp1, cy_nsl_ff_bp0, cy_nsl_ff_bp1,
    cy_acl_ff_bp0, cy_acl_ff_bp1.
  rewrite !w2v_kernel_spec, !nsl_kernel_spec, !acl_kernel_spec by reflexivity.
  rewrite w2v_loss_projection, nsl_loss_projection, acl_loss_projection.
  destruct (add_all_at
              (w2v_losses sp_size sp_idx anc_keys pn_size pn_keys pn_sign A B b
                 vec_dim) (w2v_L stw)) as [H0 Hp].
  repeat split; auto.
  - apply store_all_written.
  - apply store_all_unwritten.
Qed.

Lemma loss_accumulator_updates_witness :
  let ws := nsl_loss_writes 1 (fun _ => 0) 1 (fun _ => 0) (fun _ => 1%R)
              (fun _ => 0%R) (fun _ => 0%R) (fun _ => 0%R) 1 in
  store_all ws (fun _ => 1%R) 0 = store_all ws (fun _ => 7%R) 0
  /\ store_all ws (fun _ => 1%R) 3 = 1%R.
Proof.
  intros ws.
  destruct (loss_accumulator_updates 1 (fun _ => 0) (fun _ => 0) 1 (fun _ => 0)
              (fun _ => 1%R) (fun _ => 0%R) (fun _ => 0%R) (fun _ => 0%R)
              (mk_w2v (fun _ => 0%R) (fun _ => 0%R) (fun _ => 0%R) (fun _ => 0%R))
              (mk_lyr (fun _ => 0%R) (fun _ => 0%R) (fun _ => 0%R) (fun _ => 1%R))
              0 1 (mk_acl_locals 0 0 0%R))
    as (_ & _ & _ & Hw & Hu).
  split.
  - apply Hw. subst ws. eval_kernel. left. reflexivity.
  - apply (Hu ws (fun _ => 1%R) 3). subst ws. eval_kernel.
    intros [E|[]]. discriminate E.
Defined.

(** ** Exhausted slots of the shared-table kernel *)

(** C4.  A slot whose key is at or above [MAX_HSM_KEY] is a no-op of the
    shared-table kernel: the loss matrix, both gradient accumulators and the
    bias gradient come out of the slot as they went in.  Any other slot
    records the two-table loss [log (1 + exp (- sign * y))] in its entry and
    accumulates the two-table gradients, and a whole call of either variant
    is the succession of these slot steps, so that a loss entry no processed
    slot owns keeps its value over the call. *)
Theorem nsl_sentinel_skip :
  forall dotf sp_size sp_idx pn_size pn_keys pn_sign X W b do_grad vec_dim
         X_key row1 j st,
    let slot := u32 (X_key * pn_size + j) in
    (MAX_HSM_KEY <= pn_keys slot ->
     cy_nsl_slot dotf pn_size pn_keys pn_sign X W b do_grad vec_dim X_key row1 j st
     = st)
    /\ (pn_keys slot < MAX_HSM_KEY ->
        cy_nsl_slot dsdot pn_size pn_keys pn_sign X W b do_grad vec_dim X_key row1 j st
        = spec_nsl_pair (do_grad =? 1) vec_dim X W b row1
            (u32 (pn_keys slot * vec_dim)) (pn_keys slot) (pn_sign slot) slot st
        /\ cy_nsl_slot sdot pn_size pn_keys pn_sign X W b do_grad vec_dim X_key row1 j st
           = spec_nsl_pair (do_grad =? 1) vec_dim X W b row1
               (u32 (pn_keys slot * vec_dim)) (pn_keys slot) (pn_sign slot) slot st)
    /\ cy_nsl_ff_bp0 sp_size sp_idx pn_size pn_keys pn_sign X W b st do_grad vec_dim
       = spec_nsl (do_grad =? 1) sp_size sp_idx pn_size pn_keys pn_sign X W b
           vec_dim st
    /\ cy_nsl_ff_bp1 sp_size sp_idx pn_size pn_keys pn_sign X W b st do_grad vec_dim
       = spec_nsl (do_grad =? 1) sp_size sp_idx pn_size pn_keys pn_sign X W b
           vec_dim st
    /\ (forall p,
          ~ In p (map fst (nsl_loss_writes sp_size sp_idx pn_size pn_keys pn_sign
                             X W b vec_dim)) ->
          lyr_L (cy_nsl_ff_bp0 sp_size sp_idx pn_size pn_keys pn_sign X W b st
                   do_grad vec_dim) p = lyr_L st p
          /\ lyr_L (cy_nsl_ff_bp1 sp_size sp_idx pn_size pn_keys pn_sign X W b st
                      do_grad vec_dim) p = lyr_L st p).
Proof.
  intros.
  assert (K0 := nsl_kernel_spec dsdot sp_size sp_idx pn_size pn_keys pn_sign X W b
                  st do_grad vec_dim eq_refl).
  assert (K1 := nsl_kernel_spec sdot sp_size sp_idx pn_size pn_keys pn_sign X W b
                  st do_grad vec_dim eq_refl).
  assert (E := nsl_slot_spec pn_size pn_keys pn_sign X W b do_grad vec_dim
                 X_key row1 j st).
  cbv zeta in E. fold slot in E.
  split; [|split; [|split; [exact K0|split; [exact K1|]]]].
  - intros Hge. unfold cy_nsl_slot. fold slot.
    destruct (Z.ltb_spec (pn_keys slot) MAX_HSM_KEY); [lia|reflexivity].
  - intros Hlt.
    destruct (Z.leb_spec MAX_HSM_KEY (pn_keys slot)); [lia|].
    split; exact E.
  - intros p Hp. unfold cy_nsl_ff_bp0, cy_nsl_ff_bp1.
    rewrite K0, K1, nsl_loss_projection.
    split; now apply store_all_unwritten.
Qed.

Lemma nsl_sentinel_skip_witness :
  let st := mk_lyr (fun _ => 1%R) (fun _ => 2%R) (fun _ => 3%R) (fun _ => 4%R) in
  cy_nsl_slot dsdot 1 (fun _ => 12345678) (fun _ => 1%R) (fun _ => 1%R)
    (fun _ => 1%R) (fun _ => 0%R) 1 2 0 0 0 st = st
  /\ lyr_L (cy_nsl_ff_bp0 1 (fun _ => 0) 1 (fun _ => 4294967295) (fun _ => 1%R)
              (fun _ => 1%R) (fun _ => 1%R) (fun _ => 0%R) st 1 2) 0 = 4%R.
Proof.
  intros st. split.
  - destruct (nsl_sentinel_skip dsdot 1 (fun _ => 0) 1 (fun _ => 12345678)
                (fun _ => 1%R) (fun _ => 1%R) (fun _ => 1%R) (fun _ => 0%R)
                1 2 0 0 0 st) as (Hskip & _).
    apply Hskip. unfold MAX_HSM_KEY. lia.
  - destruct (nsl_sentinel_skip dsdot 1 (fun _ => 0) 1 (fun _ => 4294967295)
                (fun _ => 1%R) (fun _ => 1%R) (fun _ => 1%R) (fun _ => 0%R)
                1 2 0 0 0 st) as (_ & _ & _ & _ & Hkeep).
    apply (Hkeep 0). eval_kernel. intros [].
Defined.

(** * Further properties of the kernels *)

(** ** Loops over part of a range *)

Lemma loop_preserves_range {S : Type} (P : S -> Prop) (n : nat)
    (f : Z -> S -> S) (s : S) :
  P s -> (forall k t, 0 <= k < Z.of_nat n -> P t -> P (f k t)) ->
  P (loop n f s).
Proof.
  intros H0. induction n as [|m IH]; intros Hstep; [exact H0|].
  cbn [loop]. apply Hstep; [lia|].
  apply IH. intros k t Hk. apply Hstep. lia.
Qed.

Lemma for_range_preserves {S : Type} (P : S -> Prop) (n : Z)
    (f : Z -> S -> S) (s : S) :
  P s -> (forall k t, 0 <= k < n -> P t -> P (f k t)) ->
  P (for_range n f s).
Proof.
  intros H0 Hstep. unfold for_range. apply loop_preserves_range; [exact H0|].
  intros k t Hk. apply Hstep. lia.
Qed.

Lemma for_range_empty {S : Type} (n : Z) (f : Z -> S -> S) (s : S) :
  n <= 0 -> for_range n f s = s.
Proof.
  intros H. unfold for_range. now replace (Z.to_nat n) with 0%nat by lia.
Qed.

Lemma for_range_idle {S : Type} (n : Z) (f : Z -> S -> S) (s : S) :
  (forall k t, 0 <= k < n -> f k t = t) -> for_range n f s = s.
Proof.
  intros H. apply (for_range_preserves (fun t => t = s)); [reflexivity|].
  intros k t Hk ->. now apply H.
Qed.

Lemma loop_split {S : Type} (n m : nat) (f : Z -> S -> S) (s : S) :
  loop (n + m) f s = loop m (fun k => f (k + Z.of_nat n)) (loop n f s).
Proof.
  induction m as [|m IH].
  - now rewrite Nat.add_0_r.
  - rewrite Nat.add_succ_r. cbn [loop]. rewrite IH. f_equal. lia.
Qed.

Lemma for_range_split {S : Type} (n m : Z) (f : Z -> S -> S) (s : S) :
  0 <= n -> 0 <= m ->
  for_range (n + m) f s = for_range m (fun k => f (k + n)) (for_range n f s).
Proof.
  intros Hn Hm. unfold for_range.
  rewrite Z2Nat.inj_add by lia.
  rewrite (loop_split (Z.to_nat n) (Z.to_nat m)).
  apply loop_ext. intros k t. now rewrite Z2Nat.id by lia.
Qed.

(** ** Calls with nothing to do *)

Lemma acl_row_idle dotf sp_idx pn_size pn_keys X W b do_grad vec_dim sp_i s :
  pn_size <= 1 ->
  snd (cy_acl_row dotf sp_idx pn_size pn_keys X W b do_grad vec_dim sp_i s) = snd s.
Proof.
  intros H. unfold cy_acl_row, for_range.
  destruct (Z.to_nat pn_size) as [|[|m]] eqn:E; [reflexivity|reflexivity|lia].
Qed.

(** X1.  A forward/backward kernel called with an empty sub-problem index
    set, or on a target matrix without columns, returns every buffer as it
    received it; the same holds for the adaptive update and the
    scatter-accumulate with no index or with rows of no element. *)
Theorem kernels_empty_input :
  forall sp_size sp_idx anc_keys row_idx pn_size pn_keys pn_sign A B b
         stw stl sta stu do_grad vec_dim alpha uninit,
    (sp_size <= 0 \/ pn_size <= 0 ->
     cy_w2v_ff_bp0 sp_size sp_idx anc_keys pn_size pn_keys pn_sign A B b stw
       do_grad vec_dim = stw
     /\ cy_w2v_ff_bp1 sp_size sp_idx anc_keys pn_size pn_keys pn_sign A B b stw
          do_grad vec_dim = stw
     /\ cy_nsl_ff_bp0 sp_size sp_idx pn_size pn_keys pn_sign A B b stl
          do_grad vec_dim = stl
     /\ cy_nsl_ff_bp1 sp_size sp_idx pn_size pn_keys pn_sign A B b stl
          do_grad vec_dim = stl
     /\ cy_acl_ff_bp0 sp_size sp_idx pn_size pn_keys pn_sign A B b stl
          do_grad vec_dim uninit = stl
     /\ cy_acl_ff_bp1 sp_size sp_idx pn_size pn_keys pn_sign A B b stl
          do_grad vec_dim uninit = stl)
    /\ (sp_size <= 0 \/ vec_dim <= 0 ->
        cy_ag_update_2d sp_size sp_idx row_idx sta alpha vec_dim = sta
        /\ cy_lut_bp sp_size sp_idx row_idx stu vec_dim = stu)
    /\ (sp_size <= 0 -> cy_ag_update_1d sp_size sp_idx row_idx sta alpha = sta).
Proof.
  intros. split; [|split].
  - intros [Hs|Hp].
    + unfold cy_w2v_ff_bp0, cy_w2v_ff_bp1, cy_nsl_ff_bp0, cy_nsl_ff_bp1,
        cy_acl_ff_bp0, cy_acl_ff_bp1.
      rewrite !for_range_empty by exact Hs. now repeat split.
    + unfold cy_w2v_ff_bp0, cy_w2v_ff_bp1, cy_nsl_ff_bp0, cy_nsl_ff_bp1,
        cy_acl_ff_bp0, cy_acl_ff_bp1.
      repeat split;
        try (apply for_range_idle; intros k t _;
             first [unfold cy_w2v_row | unfold cy_nsl_row];
             now apply for_range_empty);
        (apply (for_range_preserves (fun s => snd s = stl)); [reflexivity|];
         intros k t _ Ht; rewrite acl_row_idle by lia; exact Ht).
  - intros [Hs|Hv].
    + unfold cy_ag_update_2d, cy_lut_bp.
      rewrite !for_range_empty by exact Hs. now split.
    + unfold cy_ag_update_2d, cy_lut_bp. split.
      * apply for_range_idle. intros k t _. now apply for_range_empty.
      * apply for_range_idle. intros k t _. cbv zeta.
        unfold saxpy. rewrite for_range_empty by exact Hv. now destruct t.
  - intros Hs. unfold cy_ag_update_1d. now apply for_range_empty.
Qed.

Lemma kernels_empty_input_witness :
  let stl := mk_lyr (fun _ => 1%R) (fun _ => 2%R) (fun _ => 3%R) (fun _ => 4%R) in
  let stu := mk_lut (fun _ => 1%R) (fun _ => 2%R) in
  cy_nsl_ff_bp0 3 (fun k => k) 0 (fun _ => 0) (fun _ => 1%R) (fun _ => 1%R)
    (fun _ => 1%R) (fun _ => 0%R) stl 1 2 = stl
  /\ cy_lut_bp 0 (fun k => k) (fun _ => 0) stu 2 = stu.
Proof.
  intros stl stu.
  destruct (kernels_empty_input 3 (fun k => k) (fun _ => 0) (fun _ => 0) 0
              (fun _ => 0) (fun _ => 1%R) (fun _ => 1%R) (fun _ => 1%R)
              (fun _ => 0%R)
              (mk_w2v (fun _ => 0%R) (fun _ => 0%R) (fun _ => 0%R) (fun _ => 0%R))
              stl (mk_ag (fun _ => 0%R) (fun _ => 0%R) (fun _ => 0%R)) stu
              1 2 1%R (mk_acl_locals 0 0 0%R)) as (H1 & _ & _).
  destruct (kernels_empty_input 0 (fun k => k) (fun _ => 0) (fun _ => 0) 0
              (fun _ => 0) (fun _ => 1%R) (fun _ => 1%R) (fun _ => 1%R)
              (fun _ => 0%R)
              (mk_w2v (fun _ => 0%R) (fun _ => 0%R) (fun _ => 0%R) (fun _ => 0%R))
              stl (mk_ag (fun _ => 0%R) (fun _ => 0%R) (fun _ => 0%R)) stu
              1 2 1%R (mk_acl_locals 0 0 0%R)) as (_ & H2 & _).
  split.
  - apply H1. right. lia.
  - apply H2. left. lia.
Defined.

(** ** Processing a sub-problem index set in consecutive parts *)

Lemma spec_acl_split r n m sp_idx pn_size pn_keys X W b vec_dim st :
  0 <= n -> 0 <= m ->
  spec_acl r (n + m) sp_idx pn_size pn_keys X W b vec_dim st =
  spec_acl r m (fun k => sp_idx (k + n)) pn_size pn_keys X W b vec_dim
    (spec_acl r n sp_idx pn_size pn_keys X W b vec_dim st).
Proof. intros Hn Hm. unfold spec_acl. now rewrite for_range_split. Qed.

(** X2.  One call on the first [n + m] entries of the sub-problem index set
    gives the same buffers as a call on the first [n] entries followed by a
    call on the next [m] entries: a minibatch can be handed to a kernel in
    consecutive parts. *)
Theorem kernels_split_subproblem :
  forall n m sp_idx anc_keys row_idx pn_size pn_keys pn_sign A B b
         stw stl sta stu do_grad vec_dim alpha uninit uninit',
    0 <= n -> 0 <= m ->
    let rest := fun k => sp_idx (k + n) in
    cy_w2v_ff_bp0 (n + m) sp_idx anc_keys pn_size pn_keys pn_sign A B b stw
      do_grad vec_dim
    = cy_w2v_ff_bp0 m rest anc_keys pn_size pn_keys pn_sign A B b
        (cy_w2v_ff_bp0 n sp_idx anc_keys pn_size pn_keys pn_sign A B b stw
           do_grad vec_dim) do_grad vec_dim
    /\ cy_w2v_ff_bp1 (n + m) sp_idx anc_keys pn_size pn_keys pn_sign A B b stw
         do_grad vec_dim
       = cy_w2v_ff_bp1 m rest anc_keys pn_size pn_keys pn_sign A B b
           (cy_w2v_ff_bp1 n sp_idx anc_keys pn_size pn_keys pn_sign A B b stw
              do_grad vec_dim) do_grad vec_dim
    /\ cy_nsl_ff_bp0 (n + m) sp_idx pn_size pn_keys pn_sign A B b stl
         do_grad vec_dim
       = cy_nsl_ff_bp0 m rest pn_size pn_keys pn_sign A B b
           (cy_nsl_ff_bp0 n sp_idx pn_size pn_keys pn_sign A B b stl
              do_grad vec_dim) do_grad vec_dim
    /\ cy_nsl_ff_bp1 (n + m) sp_idx pn_size pn_keys pn_sign A B b stl
         do_grad vec_dim
       = cy_nsl_ff_bp1 m rest pn_size pn_keys pn_sign A B b
           (cy_nsl_ff_bp1 n sp_idx pn_size pn_keys pn_sign A B b stl
              do_grad vec_dim) do_grad vec_dim
    /\ cy_acl_ff_bp0 (n + m) sp_idx pn_size pn_keys pn_sign A B b stl
         do_grad vec_dim uninit
       = cy_acl_ff_bp0 m rest pn_size pn_keys pn_sign A B b
           (cy_acl_ff_bp0 n sp_idx pn_size pn_keys pn_sign A B b stl
              do_grad vec_dim uninit) do_grad vec_dim uninit'
    /\ cy_acl_ff_bp1 (n + m) sp_idx pn_size pn_keys pn_sign A B b stl
         do_grad vec_dim uninit
       = cy_acl_ff_bp1 m rest pn_size pn_keys pn_sign A B b
           (cy_acl_ff_bp1 n sp_idx pn_size pn_keys pn_sign A B b stl
              do_grad vec_dim uninit) do_grad vec_dim uninit'
    /\ cy_ag_update_2d (n + m) sp_idx row_idx sta alpha vec_dim
       = cy_ag_update_2d m rest row_idx
           (cy_ag_update_2d n sp_idx row_idx sta alpha vec_dim) alpha vec_dim
    /\ cy_ag_update_1d (n + m) sp_idx row_idx sta alpha
       = cy_ag_update_1d m rest row_idx
           (cy_ag_update_1d n sp_idx row_idx sta alpha) alpha
    /\ cy_lut_bp (n + m) sp_idx row_idx stu vec_dim
       = cy_lut_bp m rest row_idx (cy_lut_bp n sp_idx row_idx stu vec_dim) vec_dim.
Proof.
  intros until uninit'. intros Hn Hm rest.
  unfold cy_acl_ff_bp0, cy_acl_ff_bp1.
  rewrite !acl_kernel_spec by reflexivity.
  unfold cy_w2v_ff_bp0, cy_w2v_ff_bp1, cy_nsl_ff_bp0, cy_nsl_ff_bp1,
    cy_ag_update_2d, cy_ag_update_1d, cy_lut_bp.
  rewrite !(for_range_split n m) by assumption.
  repeat split. now apply spec_acl_split. now apply spec_acl_split.
Qed.

Lemma kernels_split_subproblem_witness :
  let stu := mk_lut (fun p => IZR p) (fun _ => 0%R) in
  cy_lut_bp (1 + 2) (fun k => k) (fun k => 2 * k) stu 2
  = cy_lut_bp 2 (fun k => k + 1) (fun k => 2 * k)
      (cy_lut_bp 1 (fun k => k) (fun k => 2 * k) stu 2) 2.
Proof.
  intros stu.
  apply (kernels_split_subproblem 1 2 (fun k => k) (fun _ => 0) (fun k => 2 * k)
           1 (fun _ => 0) (fun _ => 1%R) (fun _ => 1%R) (fun _ => 1%R)
           (fun _ => 0%R)
           (mk_w2v (fun _ => 0%R) (fun _ => 0%R) (fun _ => 0%R) (fun _ => 0%R))
           (mk_lyr (fun _ => 0%R) (fun _ => 0%R) (fun _ => 0%R) (fun _ => 0%R))
           (mk_ag (fun _ => 0%R) (fun _ => 0%R) (fun _ => 0%R)) stu
           1 2 1%R (mk_acl_locals 0 0 0%R) (mk_acl_locals 0 0 0%R)); lia.
Defined.

(** ** What the reported loss depends on *)

(** X3.  The losses a kernel writes do not depend on [do_grad] nor on the
    contents of the gradient accumulators: two calls on the same tables and
    index arrays, started from equal loss buffers, end with equal loss
    buffers. *)
Theorem loss_independent_of_gradients :
  forall sp_size sp_idx anc_keys pn_size pn_keys pn_sign A B b
         stw stw' stl stl' do_grad do_grad' vec_dim uninit uninit',
    w2v_L stw = w2v_L stw' -> lyr_L stl = lyr_L stl' ->
    w2v_L (cy_w2v_ff_bp0 sp_size sp_idx anc_keys pn_size pn_keys pn_sign A B b
             stw do_grad vec_dim)
    = w2v_L (cy_w2v_ff_bp0 sp_size sp_idx anc_keys pn_size pn_keys pn_sign A B b
               stw' do_grad' vec_dim)
    /\ w2v_L (cy_w2v_ff_bp1 sp_size sp_idx anc_keys pn_size pn_keys pn_sign A B b
                stw do_grad vec_dim)
       = w2v_L (cy_w2v_ff_bp1 sp_size sp_idx anc_keys pn_size pn_keys pn_sign A B
                  b stw' do_grad' vec_dim)
    /\ lyr_L (cy_nsl_ff_bp0 sp_size sp_idx pn_size pn_keys pn_sign A B b stl
                do_grad vec_dim)
       = lyr_L (cy_nsl_ff_bp0 sp_size sp_idx pn_size pn_keys pn_sign A B b stl'
                  do_grad' vec_dim)
    /\ lyr_L (cy_nsl_ff_bp1 sp_size sp_idx pn_size pn_keys pn_sign A B b stl
                do_grad vec_dim)
       = lyr_L (cy_nsl_ff_bp1 sp_size sp_idx pn_size pn_keys pn_sign A B b stl'
                  do_grad' vec_dim)
    /\ lyr_L (cy_acl_ff_bp0 sp_size sp_idx pn_size pn_keys pn_sign A B b stl
                do_grad vec_dim uninit)
       = lyr_L (cy_acl_ff_bp0 sp_size sp_idx pn_size pn_keys pn_sign A B b stl'
                  do_grad' vec_dim uninit')
    /\ lyr_L (cy_acl_ff_bp1 sp_size sp_idx pn_size pn_keys pn_sign A B b stl
                do_grad vec_dim uninit)
       = lyr_L (cy_acl_ff_bp1 sp_size sp_idx pn_size pn_keys pn_sign A B b stl'
                  do_grad' vec_dim uninit').
Proof.
  intros until uninit'. intros Hw Hl.
  unfold cy_w2v_ff_bp0, cy_w2v_ff_bp1, cy_nsl_ff_bp0, cy_nsl_ff_bp1,
    cy_acl_ff_bp0, cy_acl_ff_bp1.
  rewrite !w2v_kernel_spec, !nsl_kernel_spec, !acl_kernel_spec by reflexivity.
  rewrite !w2v_loss_projection, !nsl_loss_projection, !acl_loss_projection.
  rewrite Hw, Hl. now repeat split.
Qed.

Lemma loss_independent_of_gradients_witness :
  let st1 := mk_w2v (fun _ => 1%R) (fun _ => 2%R) (fun _ => 3%R) (fun _ => 0%R) in
  let st2 := mk_w2v (fun _ => 5%R) (fun _ => 6%R) (fun _ => 7%R) (fun _ => 0%R) in
  w2v_L (cy_w2v_ff_bp0 2 (fun k => k) (fun k => k) 2 (fun k => k) (fun _ => 1%R)
           (fun _ => 1%R) (fun _ => 1%R) (fun _ => 0%R) st1 1 2)
  = w2v_L (cy_w2v_ff_bp0 2 (fun k => k) (fun k => k) 2 (fun k => k) (fun _ => 1%R)
             (fun _ => 1%R) (fun _ => 1%R) (fun _ => 0%R) st2 0 2).
Proof.
  intros st1 st2.
  destruct (loss_independent_of_gradients 2 (fun k => k) (fun k => k) 2
              (fun k => k) (fun _ => 1%R) (fun _ => 1%R) (fun _ => 1%R)
              (fun _ => 0%R) st1 st2
              (mk_lyr (fun _ => 0%R) (fun _ => 0%R) (fun _ => 0%R) (fun _ => 0%R))
              (mk_lyr (fun _ => 0%R) (fun _ => 0%R) (fun _ => 0%R) (fun _ => 0%R))
              1 0 2 (mk_acl_locals 0 0 0%R) (mk_acl_locals 0 0 0%R)
              eq_refl eq_refl) as (H & _).
  exact H.
Defined.

(** ** Sign of the losses *)

Lemma spec_loss_pos (sign y : R) : (0 < spec_loss sign y)%R.
Proof.
  unfold spec_loss. rewrite <- ln_1.
  assert (H := exp_pos (- sign * y)).
  apply ln_increasing; lra.
Qed.

Lemma sum_nonneg (ls : list R) :
  (forall l, In l ls -> (0 <= l)%R) -> (0 <= fold_left Rplus ls 0)%R.
Proof.
  assert (G : forall xs a, fold_left Rplus xs a = (a + fold_left Rplus xs 0)%R).
  { induction xs as [|x xs IHx]; intros a; simpl; [ring|].
    rewrite IHx, (IHx (0 + x)%R). ring. }
  induction ls as [|l ls IH]; intros Hpos; [simpl; lra|].
  cbn [fold_left]. rewrite G.
  assert (Hl : (0 <= l)%R) by (apply Hpos; now left).
  assert (Hs : (0 <= fold_left Rplus ls 0)%R)
    by (apply IH; intros x Hx; apply Hpos; now right).
  lra.
Qed.

Lemma store_all_nonneg ws L p :
  (forall w, In w ws -> (0 <= snd w)%R) -> In p (map fst ws) ->
  (0 <= store_all ws L p)%R.
Proof.
  unfold store_all. revert L. induction ws as [|w ws IH]; intros L Hpos Hin;
    [contradiction|].
  cbn [fold_left].
  destruct (in_dec Z.eq_dec p (map fst ws)) as [Hi|Hni].
  - apply IH; [intros v Hv; apply Hpos; now right|exact Hi].
  - destruct Hin as [Hw|Hin]; [|contradiction].
    fold (store_all ws (upd L (fst w) (snd w))).
    rewrite store_all_unwritten by exact Hni.
    rewrite <- Hw, upd_same. apply Hpos. now left.
Qed.

(** X4.  The logistic kernels never produce a negative loss: a call of the
    two-table kernel never lowers [L[0]], and every loss entry written by a
    call of the shared-table kernel is non-negative after the call. *)
Theorem logistic_losses_nonnegative :
  forall sp_size sp_idx anc_keys pn_size pn_keys pn_sign A B b stw stl do_grad
         vec_dim,
    let w0 := cy_w2v_ff_bp0 sp_size sp_idx anc_keys pn_size pn_keys pn_sign A B b
                stw do_grad vec_dim in
    let w1 := cy_w2v_ff_bp1 sp_size sp_idx anc_keys pn_size pn_keys pn_sign A B b
                stw do_grad vec_dim in
    let n0 := cy_nsl_ff_bp0 sp_size sp_idx pn_size pn_keys pn_sign A B b stl
                do_grad vec_dim in
    let n1 := cy_nsl_ff_bp1 sp_size sp_idx pn_size pn_keys pn_sign A B b stl
                do_grad vec_dim in
    (w2v_L stw 0%Z <= w2v_L w0 0%Z)%R
    /\ (w2v_L stw 0%Z <= w2v_L w1 0%Z)%R
    /\ (forall p,
          In p (map fst (nsl_loss_writes sp_size sp_idx pn_size pn_keys pn_sign
                           A B b vec_dim)) ->
          (0 <= lyr_L n0 p)%R /\ (0 <= lyr_L n1 p)%R).
Proof.
  intros. subst w0 w1 n0 n1.
  unfold cy_w2v_ff_bp0, cy_w2v_ff_bp1, cy_nsl_ff_bp0, cy_nsl_ff_bp1.
  rewrite !w2v_kernel_spec, !nsl_kernel_spec by reflexivity.
  rewrite w2v_loss_projection, nsl_loss_projection.
  destruct (add_all_at
              (w2v_losses sp_size sp_idx anc_keys pn_size pn_keys pn_sign A B b
                 vec_dim) (w2v_L stw)) as [H0 _].
  rewrite H0.
  assert (Hpos : forall l,
            In l (w2v_losses sp_size sp_idx anc_keys pn_size pn_keys pn_sign A B
                    b vec_dim) -> (0 <= l)%R).
  { intros l Hl. unfold w2v_losses in Hl.
    apply in_flat_map in Hl. destruct Hl as (sp_i & _ & Hl).
    apply in_flat_map in Hl. destruct Hl as (j & _ & [<-|[]]).
    apply Rlt_le, spec_loss_pos. }
  assert (Hge := sum_nonneg _ Hpos).
  split; [lra|split; [lra|]].
  intros p Hp.
  assert (G : (0 <= store_all
                     (nsl_loss_writes sp_size sp_idx pn_size pn_keys pn_sign A B b
                        vec_dim) (lyr_L stl) p)%R).
  { apply store_all_nonneg; [|exact Hp].
    intros w Hw. unfold nsl_loss_writes in Hw.
    apply in_flat_map in Hw. destruct Hw as (sp_i & _ & Hw).
    apply in_flat_map in Hw. destruct Hw as (j & _ & Hw).
    cbv zeta in Hw. destruct (_ <=? _); [contradiction|].
    destruct Hw as [<-|[]]. apply Rlt_le, spec_loss_pos. }
  now split.
Qed.

Lemma logistic_losses_nonnegative_witness :
  let stl := mk_lyr (fun _ => 0%R) (fun _ => 0%R) (fun _ => 0%R)
               (fun _ => (-5)%R) in
  (0 <= lyr_L (cy_nsl_ff_bp0 1 (fun k => k) 1 (fun k => k) (fun _ => 1%R)
                 (fun _ => 1%R) (fun _ => 1%R) (fun _ => 0%R) stl 1 2) 0%Z)%R.
Proof.
  intros stl.
  destruct (logistic_losses_nonnegative 1 (fun k => k) (fun k => k) 1
              (fun k => k) (fun _ => 1%R) (fun _ => 1%R) (fun _ => 1%R)
              (fun _ => 0%R)
              (mk_w2v (fun _ => 0%R) (fun _ => 0%R) (fun _ => 0%R) (fun _ => 0%R))
              stl 1 2) as (_ & _ & H).
  destruct (H 0) as [H0 _]; [|exact H0].
  eval_kernel. left. reflexivity.
Defined.

(** ** The accumulated gradients are the derivatives of the loss *)

(** [t |-> c0 + log (1 + exp (nl * (a + t * q)))] and its derivative. *)
Lemma softplus_affine_derivative (c0 nl a q t : R) :
  derivable_pt_lim (fun t => c0 + ln (1 + exp (nl * (a + t * q))))%R t
    (nl * (exp (nl * (a + t * q)) / (1 + exp (nl * (a + t * q)))) * q)%R.
Proof.
  pose (f1 := (mult_real_fct nl (fct_cte a + id * fct_cte q))%F).
  assert (D1 : derivable_pt_lim f1 t (nl * (0 + (1 * q + t * 0)))%R).
  { unfold f1. apply derivable_pt_lim_scal.
    apply derivable_pt_lim_plus; [apply derivable_pt_lim_const|].
    apply (derivable_pt_lim_mult id (fct_cte q) t 1 0);
      [apply derivable_pt_lim_id|apply derivable_pt_lim_const]. }
  assert (D2 : derivable_pt_lim (fct_cte 1 + comp exp f1)%F t
                 (0 + exp (f1 t) * (nl * (0 + (1 * q + t * 0))))%R).
  { apply derivable_pt_lim_plus; [apply derivable_pt_lim_const|].
    apply derivable_pt_lim_comp; [exact D1|apply derivable_pt_lim_exp]. }
  assert (Hpos : (0 < (fct_cte 1 + comp exp f1)%F t)%R).
  { unfold plus_fct, fct_cte, comp. assert (H := exp_pos (f1 t)). lra. }
  assert (D3 := derivable_pt_lim_comp _ ln t _ _ D2 (derivable_pt_lim_ln _ Hpos)).
  assert (D4 := derivable_pt_lim_plus (fct_cte c0) _ t _ _
                  (derivable_pt_lim_const c0 t) D3).
  assert (E : f1 t = (nl * (a + t * q))%R) by reflexivity.
  eapply derivable_pt_lim_ext in D4.
  2:{ intros z.
      unfold plus_fct, comp, fct_cte, f1, mult_real_fct, plus_fct, mult_fct, id.
      reflexivity. }
  cbv beta in D4.
  replace (nl * (exp (nl * (a + t * q)) / (1 + exp (nl * (a + t * q)))) * q)%R
    with (0 + / (fct_cte 1 + comp exp f1)%F t *
              (0 + exp (f1 t) * (nl * (0 + (1 * q + t * 0)))))%R.
  - exact D4.
  - unfold plus_fct, comp, fct_cte. rewrite E. unfold Rdiv. ring.
Qed.

(** The dot product is affine in each element of either vector. *)
Lemma blas_dot_upd_x n x p t xo y yo :
  blas_dot n (upd x p t) xo y yo =
  (blas_dot n (upd x p 0) xo y yo
   + t * (if in_row xo n p then y (yo + (p - xo))%Z else 0))%R.
Proof.
  unfold blas_dot, for_range.
  assert (G : forall m : nat,
    loop m (fun k acc => (acc + upd x p t (xo + k)%Z * y (yo + k)%Z)%R) 0%R =
    (loop m (fun k acc => (acc + upd x p 0 (xo + k)%Z * y (yo + k)%Z)%R) 0%R
     + t * (if in_row xo (Z.of_nat m) p then y (yo + (p - xo))%Z else 0))%R).
  { induction m as [|m IH].
    - cbn [loop]. unfold in_row.
      destruct (Z.leb_spec xo p), (Z.ltb_spec p (xo + Z.of_nat 0)); cbn [andb];
        try ring; lia.
    - cbn [loop]. rewrite IH. unfold upd, in_row.
      destruct (Z.eqb_spec (xo + Z.of_nat m) p) as [<-|Hne].
      + replace (xo + Z.of_nat m - xo) with (Z.of_nat m) by lia.
        destruct (Z.leb_spec xo (xo + Z.of_nat m)),
                 (Z.ltb_spec (xo + Z.of_nat m) (xo + Z.of_nat m)),
                 (Z.ltb_spec (xo + Z.of_nat m) (xo + Z.of_nat (Datatypes.S m)));
          cbn [andb]; try ring; lia.
      + destruct (Z.leb_spec xo p), (Z.ltb_spec p (xo + Z.of_nat m)),
                 (Z.ltb_spec p (xo + Z.of_nat (Datatypes.S m)));
          cbn [andb]; try ring; lia. }
  rewrite G. unfold in_row.
  destruct (Z.leb_spec xo p); cbn [andb]; [|reflexivity].
  destruct (Z.ltb_spec p (xo + Z.of_nat (Z.to_nat n))), (Z.ltb_spec p (xo + n));
    try reflexivity; lia.
Qed.

Lemma blas_dot_comm n x xo y yo : blas_dot n x xo y yo = blas_dot n y yo x xo.
Proof.
  unfold blas_dot. apply for_range_ext. intros k acc. ring.
Qed.

Lemma blas_dot_upd_y n x xo y p t yo :
  blas_dot n x xo (upd y p t) yo =
  (blas_dot n x xo (upd y p 0) yo
   + t * (if in_row yo n p then x (xo + (p - yo))%Z else 0))%R.
Proof.
  rewrite (blas_dot_comm n x xo (upd y p t)), (blas_dot_comm n x xo (upd y p 0)).
  apply blas_dot_upd_x.
Qed.


Lemma softplus_slot_derivative (L0 nl a q : R) (F : R -> R) (l t : R) :
  (forall z, F z = (L0 + ln (1 + exp (nl * (a + z * q))))%R) ->
  l = (nl * (exp (nl * (a + t * q)) / (1 + exp (nl * (a + t * q)))) * q)%R ->
  derivable_pt_lim F t l.
Proof.
  intros HF ->.
  apply (derivable_pt_lim_ext
           (fun z => L0 + ln (1 + exp (nl * (a + z * q))))%R).
  - intros z. now rewrite HF.
  - apply softplus_affine_derivative.
Qed.

(** X5.  In the two-table kernel with gradients on, what one pair adds to
    the gradient accumulators is the derivative of what it adds to the loss:
    with respect to an element of the anchor row for [dWa], to an element of
    the target row for [dWc], and to the target's bias for [db]. *)
Theorem w2v_gradients_are_derivatives :
  forall pn_size pn_keys pn_sign Wa Wc b vec_dim i row1 j st k t,
    0 <= k < vec_dim ->
    let c_key := pn_keys (i * pn_size + j) in
    let row2 := u32 (c_key * vec_dim) in
    let by_anchor := fun t =>
      cy_w2v_slot dsdot pn_size pn_keys pn_sign (upd Wa (row1 + k) t) Wc b
        1 vec_dim i row1 j st in
    let by_target := fun t =>
      cy_w2v_slot dsdot pn_size pn_keys pn_sign Wa (upd Wc (row2 + k) t) b
        1 vec_dim i row1 j st in
    let by_bias := fun t =>
      cy_w2v_slot dsdot pn_size pn_keys pn_sign Wa Wc (upd b c_key t)
        1 vec_dim i row1 j st in
    derivable_pt_lim (fun t => w2v_L (by_anchor t) 0) t
      (w2v_dWa (by_anchor t) (row1 + k)%Z - w2v_dWa st (row1 + k)%Z)%R
    /\ derivable_pt_lim (fun t => w2v_L (by_target t) 0) t
         (w2v_dWc (by_target t) (row2 + k)%Z - w2v_dWc st (row2 + k)%Z)%R
    /\ derivable_pt_lim (fun t => w2v_L (by_bias t) 0) t
         (w2v_db (by_bias t) c_key - w2v_db st c_key)%R.
Proof.
  intros until t. intros Hk c_key row2 by_anchor by_target by_bias.
  subst by_anchor by_target by_bias. unfold cy_w2v_slot. fold c_key. fold row2.
  cbv zeta. cbn [Z.eqb Pos.eqb w2v_L w2v_dWa w2v_dWc w2v_db].
  change dsdot with blas_dot.
  set (nl := (-1 * pn_sign (i * pn_size + j)%Z)%R).
  assert (K1 : row1 + k - row1 = k) by lia.
  assert (K2 : row2 + k - row2 = k) by lia.
  split; [|split].
  - apply (softplus_slot_derivative (w2v_L st 0) nl
             (blas_dot vec_dim (upd Wa (row1 + k) 0) row1 Wc row2 + b c_key)
             (Wc (row2 + k))).
    + intros z. rewrite upd_same, blas_dot_upd_x, in_row_inside, K1 by exact Hk.
      f_equal. f_equal. f_equal. f_equal. ring.
    + rewrite saxpy_closed. unfold axpy_row.
      rewrite in_row_inside, K1, blas_dot_upd_x, in_row_inside, K1 by exact Hk.
      set (D0 := blas_dot vec_dim (upd Wa (row1 + k) 0) row1 Wc row2).
      replace (D0 + t * Wc (row2 + k)%Z + b c_key)%R
        with (D0 + b c_key + t * Wc (row2 + k)%Z)%R by ring.
      ring.
  - apply (softplus_slot_derivative (w2v_L st 0) nl
             (blas_dot vec_dim Wa row1 (upd Wc (row2 + k) 0) row2 + b c_key)
             (Wa (row1 + k))).
    + intros z. rewrite upd_same, blas_dot_upd_y, in_row_inside, K2 by exact Hk.
      f_equal. f_equal. f_equal. f_equal. ring.
    + rewrite saxpy_closed. unfold axpy_row.
      rewrite in_row_inside, K2, blas_dot_upd_y, in_row_inside, K2 by exact Hk.
      set (D0 := blas_dot vec_dim Wa row1 (upd Wc (row2 + k) 0) row2).
      replace (D0 + t * Wa (row1 + k)%Z + b c_key)%R
        with (D0 + b c_key + t * Wa (row1 + k)%Z)%R by ring.
      ring.
  - apply (softplus_slot_derivative (w2v_L st 0) nl
             (blas_dot vec_dim Wa row1 Wc row2) 1).
    + intros z. rewrite !upd_same.
      f_equal. f_equal. f_equal. f_equal. ring.
    + rewrite !upd_same.
      replace (blas_dot vec_dim Wa row1 Wc row2 + t * 1)%R
        with (blas_dot vec_dim Wa row1 Wc row2 + t)%R by ring.
      ring.
Qed.

Lemma w2v_gradients_are_derivatives_witness :
  let st := mk_w2v (fun _ => 0%R) (fun _ => 0%R) (fun _ => 0%R) (fun _ => 0%R) in
  let by_anchor := fun t =>
    cy_w2v_slot dsdot 1 (fun _ => 3) (fun _ => 1%R) (upd (fun _ => 1%R) (0 + 1) t)
      (fun _ => 2%R) (fun _ => 0%R) 1 2 0 0 0 st in
  derivable_pt_lim (fun t => w2v_L (by_anchor t) 0) 0
    (w2v_dWa (by_anchor 0%R) (0 + 1)%Z - w2v_dWa st (0 + 1)%Z)%R.
Proof.
  intros st by_anchor.
  destruct (w2v_gradients_are_derivatives 1 (fun _ => 3) (fun _ => 1%R)
              (fun _ => 1%R) (fun _ => 2%R) (fun _ => 0%R) 2 0 0 0 st 1 0%R)
    as (H & _); [lia|].
  exact H.
Defined.

(** X6.  The same holds for a slot of the shared-table kernel whose key is
    below [MAX_HSM_KEY]: what the slot adds to [dX], [dW] and [db] is the
    derivative of the loss it records, with respect to an element of the
    input row, an element of the target row and the target's bias. *)
Theorem nsl_gradients_are_derivatives :
  forall pn_size pn_keys pn_sign X W b vec_dim X_key row1 j st k t,
    0 <= k < vec_dim ->
    let slot := u32 (X_key * pn_size + j) in
    let W_key := pn_keys slot in
    let row2 := u32 (W_key * vec_dim) in
    W_key < MAX_HSM_KEY ->
    let by_input := fun t =>
      cy_nsl_slot dsdot pn_size pn_keys pn_sign (upd X (row1 + k) t) W b
        1 vec_dim X_key row1 j st in
    let by_target := fun t =>
      cy_nsl_slot dsdot pn_size pn_keys pn_sign X (upd W (row2 + k) t) b
        1 vec_dim X_key row1 j st in
    let by_bias := fun t =>
      cy_nsl_slot dsdot pn_size pn_keys pn_sign X W (upd b W_key t)
        1 vec_dim X_key row1 j st in
    derivable_pt_lim (fun t => lyr_L (by_input t) slot) t
      (lyr_dX (by_input t) (row1 + k)%Z - lyr_dX st (row1 + k)%Z)%R
    /\ derivable_pt_lim (fun t => lyr_L (by_target t) slot) t
         (lyr_dW (by_target t) (row2 + k)%Z - lyr_dW st (row2 + k)%Z)%R
    /\ derivable_pt_lim (fun t => lyr_L (by_bias t) slot) t
         (lyr_db (by_bias t) W_key - lyr_db st W_key)%R.
Proof.
  intros until t. intros Hk slot W_key row2 Hlt by_input by_target by_bias.
  subst by_input by_target by_bias. unfold cy_nsl_slot.
  fold slot. fold W_key. fold row2.
  destruct (Z.ltb_spec W_key MAX_HSM_KEY) as [_|Hge]; [|lia].
  cbv zeta. cbn [Z.eqb Pos.eqb lyr_L lyr_dX lyr_dW lyr_db].
  change dsdot with blas_dot.
  set (nl := (-1 * pn_sign slot)%R).
  assert (K1 : row1 + k - row1 = k) by lia.
  assert (K2 : row2 + k - row2 = k) by lia.
  split; [|split].
  - apply (softplus_slot_derivative 0 nl
             (blas_dot vec_dim (upd X (row1 + k) 0) row1 W row2 + b W_key)
             (W (row2 + k))).
    + intros z. rewrite upd_same, blas_dot_upd_x, in_row_inside, K1 by exact Hk.
      rewrite Rplus_0_l. f_equal. f_equal. f_equal. f_equal. ring.
    + rewrite saxpy_closed. unfold axpy_row.
      rewrite in_row_inside, K1, blas_dot_upd_x, in_row_inside, K1 by exact Hk.
      set (D0 := blas_dot vec_dim (upd X (row1 + k) 0) row1 W row2).
      replace (D0 + t * W (row2 + k)%Z + b W_key)%R
        with (D0 + b W_key + t * W (row2 + k)%Z)%R by ring.
      ring.
  - apply (softplus_slot_derivative 0 nl
             (blas_dot vec_dim X row1 (upd W (row2 + k) 0) row2 + b W_key)
             (X (row1 + k))).
    + intros z. rewrite upd_same, blas_dot_upd_y, in_row_inside, K2 by exact Hk.
      rewrite Rplus_0_l. f_equal. f_equal. f_equal. f_equal. ring.
    + rewrite saxpy_closed. unfold axpy_row.
      rewrite in_row_inside, K2, blas_dot_upd_y, in_row_inside, K2 by exact Hk.
      set (D0 := blas_dot vec_dim X row1 (upd W (row2 + k) 0) row2).
      replace (D0 + t * X (row1 + k)%Z + b W_key)%R
        with (D0 + b W_key + t * X (row1 + k)%Z)%R by ring.
      ring.
  - apply (softplus_slot_derivative 0 nl (blas_dot vec_dim X row1 W row2) 1).
    + intros z. rewrite !upd_same.
      rewrite Rplus_0_l. f_equal. f_equal. f_equal. f_equal. ring.
    + rewrite !upd_same.
      replace (blas_dot vec_dim X row1 W row2 + t * 1)%R
        with (blas_dot vec_dim X row1 W row2 + t)%R by ring.
      ring.
Qed.

Lemma nsl_gradients_are_derivatives_witness :
  let st := mk_lyr (fun _ => 0%R) (fun _ => 0%R) (fun _ => 0%R) (fun _ => 0%R) in
  let by_target := fun t =>
    cy_nsl_slot dsdot 1 (fun _ => 3) (fun _ => 1%R) (fun _ => 1%R)
      (upd (fun _ => 2%R) (u32 (3 * 2) + 1) t) (fun _ => 0%R) 1 2 0 0 0 st in
  derivable_pt_lim (fun t => lyr_L (by_target t) (u32 (0 * 1 + 0))) 0
    (lyr_dW (by_target 0%R) (u32 (3 * 2) + 1)%Z
     - lyr_dW st (u32 (3 * 2) + 1)%Z)%R.
Proof.
  intros st by_target.
  destruct (nsl_gradients_are_derivatives 1 (fun _ => 3) (fun _ => 1%R)
              (fun _ => 1%R) (fun _ => 2%R) (fun _ => 0%R) 2 0 0 0 st 1 0%R)
    as (_ & H & _); [lia|unfold MAX_HSM_KEY; lia|].
  exact H.
Defined.

(** [t |-> - log (fp / (fp + fn + c))] with [fp = exp (u0 + t * up)] and
    [fn = k * exp (v0 + t * vp)], and its derivative. *)
Lemma ratio_loss_derivative (u0 up v0 vp t : R) :
  let fp := fun z => exp (u0 + z * up) in
  let fn := fun z => (acl_k * exp (v0 + z * vp))%R in
  derivable_pt_lim (fun z => - ln (fp z / acl_denom (fp z) (fn z)))%R t
    (g_bp (fn t) (acl_denom (fp t) (fn t)) * up
     + g_bn (fn t) (acl_denom (fp t) (fn t)) * vp)%R.
Proof.
  intros fp fn.
  assert (Hd : forall z, (0 < acl_denom (fp z) (fn z))%R).
  { intros z. unfold acl_denom, fp, fn, acl_k, acl_c.
    assert (H1 := exp_pos (u0 + z * up)). assert (H2 := exp_pos (v0 + z * vp)).
    lra. }
  pose (U := (fct_cte u0 + id * fct_cte up)%F).
  pose (V := (fct_cte v0 + id * fct_cte vp)%F).
  assert (DU : derivable_pt_lim U t (0 + (1 * up + t * 0))%R).
  { apply derivable_pt_lim_plus; [apply derivable_pt_lim_const|].
    apply (derivable_pt_lim_mult id (fct_cte up) t 1 0);
      [apply derivable_pt_lim_id|apply derivable_pt_lim_const]. }
  assert (DV : derivable_pt_lim V t (0 + (1 * vp + t * 0))%R).
  { apply derivable_pt_lim_plus; [apply derivable_pt_lim_const|].
    apply (derivable_pt_lim_mult id (fct_cte vp) t 1 0);
      [apply derivable_pt_lim_id|apply derivable_pt_lim_const]. }
  pose (Dn := (comp exp U + mult_real_fct acl_k (comp exp V) + fct_cte acl_c)%F).
  assert (DD : derivable_pt_lim Dn t
                 (exp (U t) * (0 + (1 * up + t * 0))
                  + acl_k * (exp (V t) * (0 + (1 * vp + t * 0))) + 0)%R).
  { unfold Dn. apply derivable_pt_lim_plus; [|apply derivable_pt_lim_const].
    apply derivable_pt_lim_plus.
    - apply derivable_pt_lim_comp; [exact DU|apply derivable_pt_lim_exp].
    - apply derivable_pt_lim_scal.
      apply derivable_pt_lim_comp; [exact DV|apply derivable_pt_lim_exp]. }
  assert (EU : forall z, U z = (u0 + z * up)%R) by reflexivity.
  assert (EV : forall z, V z = (v0 + z * vp)%R) by reflexivity.
  assert (ED : forall z, Dn z = acl_denom (fp z) (fn z)) by reflexivity.
  assert (Hpos : (0 < Dn t)%R) by (rewrite ED; apply Hd).
  assert (DL := derivable_pt_lim_comp _ ln t _ _ DD (derivable_pt_lim_ln _ Hpos)).
  assert (DF := derivable_pt_lim_plus _ _ t _ _
                  (derivable_pt_lim_opp _ _ _ DU) DL).
  apply (derivable_pt_lim_ext (- U + comp ln Dn)%F).
  - intros z. unfold plus_fct, opp_fct, comp. rewrite ED, EU.
    assert (Hz := Hd z). unfold Rdiv. rewrite ln_mult, ln_Rinv.
    + unfold fp. rewrite ln_exp. ring.
    + exact Hz.
    + apply exp_pos.
    + now apply Rinv_0_lt_compat.
  - replace (g_bp (fn t) (acl_denom (fp t) (fn t)) * up
             + g_bn (fn t) (acl_denom (fp t) (fn t)) * vp)%R
      with (- (0 + (1 * up + t * 0))
            + / Dn t * (exp (U t) * (0 + (1 * up + t * 0))
                        + acl_k * (exp (V t) * (0 + (1 * vp + t * 0))) + 0))%R.
    + exact DF.
    + rewrite ED, EU, EV. unfold g_bp, g_bn.
      assert (Hne : acl_denom (fp t) (fn t) <> 0%R).
      { assert (H := Hd t). lra. }
      unfold acl_denom in *. unfold fp, fn in *. field. exact Hne.
Qed.

Lemma ratio_slot_derivative (u0 up v0 vp : R) (F : R -> R) (l t : R) :
  (forall z, F z =
     (- ln (exp (u0 + z * up)
            / acl_denom (exp (u0 + z * up)) (acl_k * exp (v0 + z * vp))))%R) ->
  l = (g_bp (acl_k * exp (v0 + t * vp))
         (acl_denom (exp (u0 + t * up)) (acl_k * exp (v0 + t * vp))) * up
       + g_bn (acl_k * exp (v0 + t * vp))
           (acl_denom (exp (u0 + t * up)) (acl_k * exp (v0 + t * vp))) * vp)%R ->
  derivable_pt_lim F t l.
Proof.
  intros HF ->.
  apply (derivable_pt_lim_ext
           (fun z => - ln (exp (u0 + z * up)
                           / acl_denom (exp (u0 + z * up))
                               (acl_k * exp (v0 + z * vp))))%R).
  - intros z. now rewrite HF.
  - apply (ratio_loss_derivative u0 up v0 vp t).
Qed.

(** X7.  In the contrastive-ratio kernel with gradients on, the positive
    column followed by a negative column adds to [dX] the derivative of the
    recorded loss with respect to the input element, and, when the two
    columns have different keys, adds to [db] at each key the derivative
    with respect to that key's bias. *)
Theorem acl_gradients_are_derivatives :
  forall pn_size pn_keys X W b vec_dim Xk row1 j st uninit k t,
    j <> 0 -> 0 <= k < vec_dim ->
    let pos_key := pn_keys (u32 (Xk * pn_size + 0)) in
    let neg_key := pn_keys (u32 (Xk * pn_size + j)) in
    let slot := u32 (Xk * pn_size + j) in
    let pair := fun X b =>
      snd (cy_acl_slot dsdot pn_size pn_keys X W b 1 vec_dim Xk row1 j
             (cy_acl_slot dsdot pn_size pn_keys X W b 1 vec_dim Xk row1 0
                (uninit, st))) in
    derivable_pt_lim (fun t => lyr_L (pair (upd X (row1 + k) t) b) slot) t
      (lyr_dX (pair (upd X (row1 + k) t) b) (row1 + k)%Z
       - lyr_dX st (row1 + k)%Z)%R
    /\ (pos_key <> neg_key ->
        derivable_pt_lim (fun t => lyr_L (pair X (upd b pos_key t)) slot) t
          (lyr_db (pair X (upd b pos_key t)) pos_key - lyr_db st pos_key)%R
        /\ derivable_pt_lim (fun t => lyr_L (pair X (upd b neg_key t)) slot) t
             (lyr_db (pair X (upd b neg_key t)) neg_key - lyr_db st neg_key)%R).
Proof.
  intros until t. intros Hj Hk pos_key neg_key slot pair. subst pair.
  unfold cy_acl_slot. cbn [fst snd Z.eqb].
  destruct (Z.eqb_spec j 0) as [E|_]; [contradiction|].
  cbv zeta. cbn [Z.eqb Pos.eqb fst snd lyr_L lyr_dX lyr_dW lyr_db f_p r_p Wk_p].
  fold pos_key. fold neg_key. fold slot.
  change dsdot with blas_dot.
  set (rp := u32 (pos_key * vec_dim)). set (rn := u32 (neg_key * vec_dim)).
  assert (K1 : row1 + k - row1 = k) by lia.
  split.
  - set (Dp := blas_dot vec_dim (upd X (row1 + k) 0) row1 W rp).
    set (Dn := blas_dot vec_dim (upd X (row1 + k) 0) row1 W rn).
    assert (Ep : forall z, (acl_a * (Dp + z * W (rp + k)%Z) + b pos_key
                            = (acl_a * Dp + b pos_key) + z * (acl_a * W (rp + k)%Z))%R)
      by (intros; ring).
    assert (En : forall z, (acl_a * (Dn + z * W (rn + k)%Z) + b neg_key
                            = (acl_a * Dn + b neg_key) + z * (acl_a * W (rn + k)%Z))%R)
      by (intros; ring).
    apply (ratio_slot_derivative (acl_a * Dp + b pos_key) (acl_a * W (rp + k))
             (acl_a * Dn + b neg_key) (acl_a * W (rn + k))).
    + intros z. rewrite upd_same.
      rewrite (blas_dot_upd_x vec_dim X (row1 + k) z row1 W rp),
        (blas_dot_upd_x vec_dim X (row1 + k) z row1 W rn).
      rewrite !in_row_inside, !K1 by exact Hk.
      fold Dp. fold Dn. now rewrite Ep, En.
    + rewrite !saxpy_closed. unfold axpy_row.
      rewrite !in_row_inside, !K1 by exact Hk.
      rewrite (blas_dot_upd_x vec_dim X (row1 + k) t row1 W rp),
        (blas_dot_upd_x vec_dim X (row1 + k) t row1 W rn).
      rewrite !in_row_inside, !K1 by exact Hk.
      fold Dp. fold Dn. rewrite !Ep, !En.
      unfold g_yp, g_yn, g_bp, g_bn, Rdiv. ring.
  - intros Hne. split.
    + apply (ratio_slot_derivative (acl_a * blas_dot vec_dim X row1 W rp) 1
               (acl_a * blas_dot vec_dim X row1 W rn + b neg_key) 0).
      * intros z. rewrite !upd_same.
        rewrite (upd_other b pos_key neg_key z) by congruence.
        replace (acl_a * blas_dot vec_dim X row1 W rp + z * 1)%R
          with (acl_a * blas_dot vec_dim X row1 W rp + z)%R by ring.
        replace (acl_a * blas_dot vec_dim X row1 W rn + b neg_key + z * 0)%R
          with (acl_a * blas_dot vec_dim X row1 W rn + b neg_key)%R by ring.
        reflexivity.
      * rewrite (upd_other _ neg_key pos_key) by exact Hne.
        rewrite !upd_same.
        rewrite (upd_other b pos_key neg_key t) by congruence.
        replace (acl_a * blas_dot vec_dim X row1 W rp + t * 1)%R
          with (acl_a * blas_dot vec_dim X row1 W rp + t)%R by ring.
        replace (acl_a * blas_dot vec_dim X row1 W rn + b neg_key + t * 0)%R
          with (acl_a * blas_dot vec_dim X row1 W rn + b neg_key)%R by ring.
        ring.
    + apply (ratio_slot_derivative (acl_a * blas_dot vec_dim X row1 W rp + b pos_key) 0
               (acl_a * blas_dot vec_dim X row1 W rn) 1).
      * intros z. rewrite !upd_same.
        rewrite (upd_other b neg_key pos_key z) by exact Hne.
        replace (acl_a * blas_dot vec_dim X row1 W rn + z * 1)%R
          with (acl_a * blas_dot vec_dim X row1 W rn + z)%R by ring.
        replace (acl_a * blas_dot vec_dim X row1 W rp + b pos_key + z * 0)%R
          with (acl_a * blas_dot vec_dim X row1 W rp + b pos_key)%R by ring.
        reflexivity.
      * rewrite !upd_same.
        rewrite (upd_other (lyr_db st) pos_key neg_key) by congruence.
        rewrite (upd_other b neg_key pos_key t) by exact Hne.
        replace (acl_a * blas_dot vec_dim X row1 W rn + t * 1)%R
          with (acl_a * blas_dot vec_dim X row1 W rn + t)%R by ring.
        replace (acl_a * blas_dot vec_dim X row1 W rp + b pos_key + t * 0)%R
          with (acl_a * blas_dot vec_dim X row1 W rp + b pos_key)%R by ring.
        ring.
Qed.

Lemma acl_gradients_are_derivatives_witness :
  let st := mk_lyr (fun _ => 0%R) (fun _ => 0%R) (fun _ => 0%R) (fun _ => 0%R) in
  let pair := fun X b =>
    snd (cy_acl_slot dsdot 2 (fun s => s) X (fun _ => 1%R) b 1 2 0 0 1
           (cy_acl_slot dsdot 2 (fun s => s) X (fun _ => 1%R) b 1 2 0 0 0
              (mk_acl_locals 0 0 0%R, st))) in
  derivable_pt_lim
    (fun t => lyr_L (pair (upd (fun _ => 1%R) (0 + 1) t) (fun _ => 0%R))
                (u32 (0 * 2 + 1))) 0
    (lyr_dX (pair (upd (fun _ => 1%R) (0 + 1) 0%R) (fun _ => 0%R)) (0 + 1)%Z
     - lyr_dX st (0 + 1)%Z)%R.
Proof.
  intros st pair.
  destruct (acl_gradients_are_derivatives 2 (fun s => s) (fun _ => 1%R)
              (fun _ => 1%R) (fun _ => 0%R) 2 0 0 1 st (mk_acl_locals 0 0 0%R)
              1 0%R) as (H & _); [lia|lia|].
  exact H.
Defined.

(** ** Invariants of the sparse adaptive update *)

Lemma ag_run_moment_nonneg es alpha st :
  (forall e, 0 <= ag_mW st e)%R ->
  forall e, (0 <= ag_mW (spec_ag_run alpha es st) e)%R.
Proof.
  unfold spec_ag_run, spec_ag_run_with.
  revert st. induction es as [|a es IH]; intros st H e; [apply H|].
  cbn [fold_left]. apply IH. intros e'. unfold spec_ag_elem. cbn [ag_mW].
  unfold upd. destruct (e' =? a); [|apply H].
  assert (Ha := H a). assert (Hg := pow2_ge_0 (ag_dW st a)). nra.
Qed.

(** X9.  The moments stay non-negative: if no element of the moment buffer
    is negative before a call of the adaptive update, none is negative
    after it. *)
Theorem ag_moment_nonnegative :
  forall sp_size sp_idx row_idx st alpha vec_dim,
    (forall e, 0 <= ag_mW st e)%R ->
    forall e,
      (0 <= ag_mW (cy_ag_update_1d sp_size sp_idx row_idx st alpha) e)%R
      /\ (0 <= ag_mW (cy_ag_update_2d sp_size sp_idx row_idx st alpha vec_dim) e)%R.
Proof.
  intros until vec_dim. intros H e.
  rewrite ag_1d_run, ag_2d_run. split; now apply ag_run_moment_nonneg.
Qed.

Lemma ag_moment_nonnegative_witness :
  let st := mk_ag (fun _ => 1%R) (fun p => IZR p) (fun _ => 0%R) in
  (0 <= ag_mW (cy_ag_update_2d 2 (fun k => k) (fun k => (k + 3)%Z) st (1 / 2) 4)
          13%Z)%R.
Proof.
  intros st.
  apply (ag_moment_nonnegative 2 (fun k => k) (fun k => k + 3) st (1 / 2)%R 4).
  intros e. cbn [st ag_mW]. lra.
Defined.

Lemma ag_step_direction (m' g alpha : R) :
  (0 <= alpha)%R -> (- (alpha * g / (sqrt m' + 1 / 1000)) * g <= 0)%R.
Proof.
  intros Ha.
  assert (Hs := sqrt_pos m').
  assert (Hu : (0 < / (sqrt m' + 1 / 1000))%R)
    by (apply Rinv_0_lt_compat; lra).
  unfold Rdiv at 1. set (u := (/ (sqrt m' + 1 / 1000))%R) in *.
  replace (- (alpha * g * u) * g)%R with (- (alpha * (g ^ 2 * u)))%R by ring.
  assert (Hg := pow2_ge_0 g).
  assert (H : (0 <= g ^ 2 * u)%R) by (apply Rmult_le_pos; lra).
  assert (H' := Rmult_le_pos _ _ Ha H). lra.
Qed.



Lemma flat_map_singleton {A B : Type} (f : A -> B) (l : list A) :
  flat_map (fun a => [f a]) l = map f l.
Proof. induction l as [|a l IH]; [reflexivity|]. cbn. now rewrite IH. Qed.

(** X11.  On a table of one column the 2D update is the 1D update: for row
    keys that fit in 32 bits, [cy_ag_update_2d] with [vec_dim = 1] and
    [cy_ag_update_1d] return the same buffers. *)
Theorem ag_2d_one_column_is_1d :
  forall sp_size sp_idx row_idx st alpha,
    (forall k, 0 <= row_idx k < 2 ^ 32) ->
    cy_ag_update_2d sp_size sp_idx row_idx st alpha 1 =
    cy_ag_update_1d sp_size sp_idx row_idx st alpha.
Proof.
  intros until alpha. intros Hr.
  rewrite ag_1d_run, ag_2d_run. f_equal.
  unfold ag_addressed_2d, ag_addressed_1d.
  change (range 1) with [0]. cbn [map].
  rewrite flat_map_singleton. apply map_ext. intros sp_i.
  rewrite Z.mul_1_r, Z.add_0_r. apply u32_small, Hr.
Qed.

Lemma ag_2d_one_column_is_1d_witness :
  let st := mk_ag (fun _ => 1%R) (fun p => IZR p) (fun _ => 0%R) in
  cy_ag_update_2d 3 (fun k => k) (fun k => u32 (7 * k)) st (1 / 2)%R 1 =
  cy_ag_update_1d 3 (fun k => k) (fun k => u32 (7 * k)) st (1 / 2)%R.
Proof.
  intros st.
  apply (ag_2d_one_column_is_1d 3 (fun k => k) (fun k => u32 (7 * k)) st (1 / 2)%R).
  intros k. unfold u32. apply Z.mod_pos_bound. lia.
Defined.

(** ** The entry points after the module is imported *)


(** ** Rows without work *)

(** X13.  A call of the shared-table kernel in which every slot of every
    selected row holds a key at or above [MAX_HSM_KEY] changes nothing, and
    so does a call of the contrastive-ratio kernel on a target matrix of a
    single column. *)
Theorem rows_without_work :
  forall sp_size sp_idx pn_size pn_keys pn_sign X W b st do_grad vec_dim uninit,
    ((forall sp_i j, 0 <= sp_i < sp_size -> 0 <= j < pn_size ->
        MAX_HSM_KEY <= pn_keys (u32 (sp_idx sp_i * pn_size + j))) ->
     cy_nsl_ff_bp0 sp_size sp_idx pn_size pn_keys pn_sign X W b st do_grad vec_dim
     = st
     /\ cy_nsl_ff_bp1 sp_size sp_idx pn_size pn_keys pn_sign X W b st do_grad
          vec_dim = st)
    /\ (pn_size = 1 ->
        cy_acl_ff_bp0 sp_size sp_idx pn_size pn_keys pn_sign X W b st do_grad
          vec_dim uninit = st
        /\ cy_acl_ff_bp1 sp_size sp_idx pn_size pn_keys pn_sign X W b st do_grad
             vec_dim uninit = st).
Proof.
  intros. split.
  - intros Hall. unfold cy_nsl_ff_bp0, cy_nsl_ff_bp1.
    split; apply for_range_idle; intros sp_i t Hs; unfold cy_nsl_row;
      apply for_range_idle; intros j u Hj; unfold cy_nsl_slot;
      specialize (Hall sp_i j Hs Hj);
      destruct (Z.ltb_spec (pn_keys (u32 (sp_idx sp_i * pn_size + j))) MAX_HSM_KEY);
      (lia || reflexivity).
  - intros Hp. unfold cy_acl_ff_bp0, cy_acl_ff_bp1.
    split; (apply (for_range_preserves (fun s => snd s = st)); [reflexivity|]);
      intros k t _ Ht; rewrite acl_row_idle by lia; exact Ht.
Qed.

Lemma rows_without_work_witness :
  let st := mk_lyr (fun _ => 1%R) (fun _ => 2%R) (fun _ => 3%R) (fun _ => 4%R) in
  cy_nsl_ff_bp0 2 (fun k => k) 3 (fun s => 12345678 + s) (fun _ => 1%R)
    (fun _ => 1%R) (fun _ => 1%R) (fun _ => 0%R) st 1 2 = st
  /\ cy_acl_ff_bp0 2 (fun k => k) 1 (fun s => s) (fun _ => 1%R)
       (fun _ => 1%R) (fun _ => 1%R) (fun _ => 0%R) st 1 2
       (mk_acl_locals 0 0 0%R) = st.
Proof.
  intros st. split.
  - destruct (rows_without_work 2 (fun k => k) 3 (fun s => 12345678 + s)
                (fun _ => 1%R) (fun _ => 1%R) (fun _ => 1%R) (fun _ => 0%R) st
                1 2 (mk_acl_locals 0 0 0%R)) as ([H _] & _); [|exact H].
    intros sp_i j Hs Hj. unfold MAX_HSM_KEY, u32.
    assert (H := Z.mod_pos_bound (sp_i * 3 + j) (2 ^ 32)). lia.
  - destruct (rows_without_work 2 (fun k => k) 1 (fun s => s)
                (fun _ => 1%R) (fun _ => 1%R) (fun _ => 1%R) (fun _ => 0%R) st
                1 2 (mk_acl_locals 0 0 0%R)) as (_ & H).
    apply H. reflexivity.
Defined.

(** ** Where a call writes gradients *)

Lemma axpy_row_outside alpha x xo y yo dim p :
  in_row yo dim p = false -> axpy_row alpha x xo y yo dim p = y p.
Proof. intros H. unfold axpy_row. now rewrite H. Qed.

(** X14.  A call writes the input-side gradient only inside the rows of the
    keys its sub-problem index set selects: an element of [dX] (of [dWa] for
    the two-table kernel) that lies in none of these rows keeps its value.
    Calls on index sets that select different rows therefore write disjoint
    parts of that buffer. *)
Theorem input_gradient_write_set :
  forall sp_size sp_idx anc_keys pn_size pn_keys pn_sign A B b stw stl do_grad
         vec_dim uninit p,
    ((forall sp_i, 0 <= sp_i < sp_size ->
        in_row (u32 (anc_keys (to_int (sp_idx sp_i)) * vec_dim)) vec_dim p = false) ->
     w2v_dWa (cy_w2v_ff_bp0 sp_size sp_idx anc_keys pn_size pn_keys pn_sign A B b
                stw do_grad vec_dim) p = w2v_dWa stw p
     /\ w2v_dWa (cy_w2v_ff_bp1 sp_size sp_idx anc_keys pn_size pn_keys pn_sign A B
                   b stw do_grad vec_dim) p = w2v_dWa stw p)
    /\ ((forall sp_i, 0 <= sp_i < sp_size ->
           in_row (u32 (sp_idx sp_i * vec_dim)) vec_dim p = false) ->
        lyr_dX (cy_nsl_ff_bp0 sp_size sp_idx pn_size pn_keys pn_sign A B b stl
                  do_grad vec_dim) p = lyr_dX stl p
        /\ lyr_dX (cy_nsl_ff_bp1 sp_size sp_idx pn_size pn_keys pn_sign A B b stl
                     do_grad vec_dim) p = lyr_dX stl p
        /\ lyr_dX (cy_acl_ff_bp0 sp_size sp_idx pn_size pn_keys pn_sign A B b stl
                     do_grad vec_dim uninit) p = lyr_dX stl p
        /\ lyr_dX (cy_acl_ff_bp1 sp_size sp_idx pn_size pn_keys pn_sign A B b stl
                     do_grad vec_dim uninit) p = lyr_dX stl p).
Proof.
  intros.
  unfold cy_w2v_ff_bp0, cy_w2v_ff_bp1, cy_nsl_ff_bp0, cy_nsl_ff_bp1,
    cy_acl_ff_bp0, cy_acl_ff_bp1.
  rewrite !w2v_kernel_spec, !nsl_kernel_spec, !acl_kernel_spec by reflexivity.
  split.
  - intros Hout.
    assert (G : w2v_dWa (spec_w2v (do_grad =? 1) sp_size sp_idx anc_keys pn_size
                           pn_keys pn_sign A B b vec_dim stw) p = w2v_dWa stw p).
    { unfold spec_w2v.
      apply (for_range_preserves (fun t => w2v_dWa t p = w2v_dWa stw p));
        [reflexivity|].
      intros sp_i t Hs Ht. cbv zeta.
      apply (for_range_preserves (fun t => w2v_dWa t p = w2v_dWa stw p));
        [exact Ht|].
      intros j u _ Hu. unfold spec_w2v_pair, spec_pair_grads.
      destruct (do_grad =? 1); cbn [w2v_dWa]; [|exact Hu].
      rewrite axpy_row_outside by (apply Hout; exact Hs). exact Hu. }
    now split.
  - intros Hout.
    assert (G : lyr_dX (spec_nsl (do_grad =? 1) sp_size sp_idx pn_size pn_keys
                          pn_sign A B b vec_dim stl) p = lyr_dX stl p).
    { unfold spec_nsl.
      apply (for_range_preserves (fun t => lyr_dX t p = lyr_dX stl p));
        [reflexivity|].
      intros sp_i t Hs Ht. cbv zeta.
      apply (for_range_preserves (fun t => lyr_dX t p = lyr_dX stl p));
        [exact Ht|].
      intros j u _ Hu. destruct (_ <=? _); [exact Hu|].
      unfold spec_nsl_pair, spec_pair_grads.
      destruct (do_grad =? 1); cbn [lyr_dX]; [|exact Hu].
      rewrite axpy_row_outside by (apply Hout; exact Hs). exact Hu. }
    assert (H : lyr_dX (spec_acl (do_grad =? 1) sp_size sp_idx pn_size pn_keys
                          A B b vec_dim stl) p = lyr_dX stl p).
    { unfold spec_acl.
      apply (for_range_preserves (fun t => lyr_dX t p = lyr_dX stl p));
        [reflexivity|].
      intros sp_i t Hs Ht. unfold spec_acl_row. cbv zeta.
      apply (for_range_preserves (fun t => lyr_dX t p = lyr_dX stl p));
        [exact Ht|].
      intros j u _ Hu. unfold spec_acl_neg. cbv zeta.
      destruct (do_grad =? 1); cbn [lyr_dX]; [|exact Hu].
      rewrite !axpy_row_outside by (apply Hout; exact Hs). exact Hu. }
    now repeat split.
Qed.

Lemma input_gradient_write_set_witness :
  let stl := mk_lyr (fun _ => 7%R) (fun _ => 0%R) (fun _ => 0%R) (fun _ => 0%R) in
  lyr_dX (cy_nsl_ff_bp0 2 (fun k => k) 2 (fun s => s) (fun _ => 1%R)
            (fun _ => 1%R) (fun _ => 1%R) (fun _ => 0%R) stl 1 3) 6 = 7%R.
Proof.
  intros stl.
  destruct (input_gradient_write_set 2 (fun k => k) (fun k => k) 2 (fun s => s)
              (fun _ => 1%R) (fun _ => 1%R) (fun _ => 1%R) (fun _ => 0%R)
              (mk_w2v (fun _ => 0%R) (fun _ => 0%R) (fun _ => 0%R) (fun _ => 0%R))
              stl 1 3 (mk_acl_locals 0 0 0%R) 6) as (_ & H).
  destruct H as (H & _); [|exact H].
  intros sp_i Hs. unfold in_row, u32.
  assert (E : sp_i = 0 \/ sp_i = 1) by lia.
  destruct E as [-> | ->]; reflexivity.
Defined.

(** X15.  On the target side a call writes only at the keys listed in the
    selected rows of the target matrix: the bias gradient of a key that is
    listed in none of them, and an element of the target-side gradient table
    that lies in the row of none of them, keep their values. *)
Theorem target_gradient_write_set :
  forall sp_size sp_idx pn_size pn_keys pn_sign X W b st do_grad vec_dim uninit
         key p,
    let listed := fun sp_i j => pn_keys (u32 (sp_idx sp_i * pn_size + j)) in
    ((forall sp_i j, 0 <= sp_i < sp_size -> 0 <= j < pn_size ->
        listed sp_i j <> key) ->
     lyr_db (cy_nsl_ff_bp0 sp_size sp_idx pn_size pn_keys pn_sign X W b st
               do_grad vec_dim) key = lyr_db st key
     /\ lyr_db (cy_nsl_ff_bp1 sp_size sp_idx pn_size pn_keys pn_sign X W b st
                  do_grad vec_dim) key = lyr_db st key
     /\ lyr_db (cy_acl_ff_bp0 sp_size sp_idx pn_size pn_keys pn_sign X W b st
                  do_grad vec_dim uninit) key = lyr_db st key
     /\ lyr_db (cy_acl_ff_bp1 sp_size sp_idx pn_size pn_keys pn_sign X W b st
                  do_grad vec_dim uninit) key = lyr_db st key)
    /\ ((forall sp_i j, 0 <= sp_i < sp_size -> 0 <= j < pn_size ->
           in_row (u32 (listed sp_i j * vec_dim)) vec_dim p = false) ->
        lyr_dW (cy_nsl_ff_bp0 sp_size sp_idx pn_size pn_keys pn_sign X W b st
                  do_grad vec_dim) p = lyr_dW st p
        /\ lyr_dW (cy_nsl_ff_bp1 sp_size sp_idx pn_size pn_keys pn_sign X W b st
                     do_grad vec_dim) p = lyr_dW st p
        /\ lyr_dW (cy_acl_ff_bp0 sp_size sp_idx pn_size pn_keys pn_sign X W b st
                     do_grad vec_dim uninit) p = lyr_dW st p
        /\ lyr_dW (cy_acl_ff_bp1 sp_size sp_idx pn_size pn_keys pn_sign X W b st
                     do_grad vec_dim uninit) p = lyr_dW st p).
Proof.
  intros.
  unfold cy_nsl_ff_bp0, cy_nsl_ff_bp1, cy_acl_ff_bp0, cy_acl_ff_bp1.
  rewrite !nsl_kernel_spec, !acl_kernel_spec by reflexivity.
  split.
  - intros Hout.
    assert (G : lyr_db (spec_nsl (do_grad =? 1) sp_size sp_idx pn_size pn_keys
                          pn_sign X W b vec_dim st) key = lyr_db st key).
    { unfold spec_nsl.
      apply (for_range_preserves (fun t => lyr_db t key = lyr_db st key));
        [reflexivity|].
      intros sp_i t Hs Ht. cbv zeta.
      apply (for_range_preserves (fun t => lyr_db t key = lyr_db st key));
        [exact Ht|].
      intros j u Hj Hu. destruct (_ <=? _); [exact Hu|].
      unfold spec_nsl_pair, spec_pair_grads.
      destruct (do_grad =? 1); cbn [lyr_db]; [|exact Hu].
      rewrite upd_other; [exact Hu|].
      intros E. apply (Hout sp_i j Hs Hj). now symmetry. }
    assert (H : lyr_db (spec_acl (do_grad =? 1) sp_size sp_idx pn_size pn_keys
                          X W b vec_dim st) key = lyr_db st key).
    { unfold spec_acl.
      apply (for_range_preserves (fun t => lyr_db t key = lyr_db st key));
        [reflexivity|].
      intros sp_i t Hs Ht. unfold spec_acl_row. cbv zeta.
      apply (for_range_preserves (fun t => lyr_db t key = lyr_db st key));
        [exact Ht|].
      intros n u Hn Hu. unfold spec_acl_neg. cbv zeta.
      destruct (do_grad =? 1); cbn [lyr_db]; [|exact Hu].
      rewrite !upd_other; [exact Hu| |].
      - intros E. apply (Hout sp_i 0 Hs); [lia|]. now symmetry.
      - intros E. apply (Hout sp_i (n + 1) Hs); [lia|]. now symmetry. }
    now repeat split.
  - intros Hout.
    assert (G : lyr_dW (spec_nsl (do_grad =? 1) sp_size sp_idx pn_size pn_keys
                          pn_sign X W b vec_dim st) p = lyr_dW st p).
    { unfold spec_nsl.
      apply (for_range_preserves (fun t => lyr_dW t p = lyr_dW st p));
        [reflexivity|].
      intros sp_i t Hs Ht. cbv zeta.
      apply (for_range_preserves (fun t => lyr_dW t p = lyr_dW st p));
        [exact Ht|].
      intros j u Hj Hu. destruct (_ <=? _); [exact Hu|].
      unfold spec_nsl_pair, spec_pair_grads.
      destruct (do_grad =? 1); cbn [lyr_dW]; [|exact Hu].
      rewrite axpy_row_outside by (apply (Hout sp_i j Hs Hj)). exact Hu. }
    assert (H : lyr_dW (spec_acl (do_grad =? 1) sp_size sp_idx pn_size pn_keys
                          X W b vec_dim st) p = lyr_dW st p).
    { unfold spec_acl.
      apply (for_range_preserves (fun t => lyr_dW t p = lyr_dW st p));
        [reflexivity|].
      intros sp_i t Hs Ht. unfold spec_acl_row. cbv zeta.
      apply (for_range_preserves (fun t => lyr_dW t p = lyr_dW st p));
        [exact Ht|].
      intros n u Hn Hu. unfold spec_acl_neg. cbv zeta.
      destruct (do_grad =? 1); cbn [lyr_dW]; [|exact Hu].
      rewrite !axpy_row_outside; [exact Hu| |].
      - apply (Hout sp_i 0 Hs). lia.
      - apply (Hout sp_i (n + 1) Hs). lia. }
    now repeat split.
Qed.

Lemma target_gradient_write_set_witness :
  let st := mk_lyr (fun _ => 0%R) (fun _ => 0%R) (fun _ => 7%R) (fun _ => 0%R) in
  lyr_db (cy_nsl_ff_bp0 2 (fun k => k) 2 (fun s => s) (fun _ => 1%R)
            (fun _ => 1%R) (fun _ => 1%R) (fun _ => 0%R) st 1 3) 9 = 7%R.
Proof.
  intros st.
  destruct (target_gradient_write_set 2 (fun k => k) 2 (fun s => s)
              (fun _ => 1%R) (fun _ => 1%R) (fun _ => 1%R) (fun _ => 0%R)
              st 1 3 (mk_acl_locals 0 0 0%R) 9 0) as (H & _).
  destruct H as (H & _); [|exact H].
  intros sp_i j Hs Hj. unfold u32.
  rewrite Z.mod_small by lia. lia.
Defined.

(** ** Row offsets are computed in 32 bits *)

(** X16.  The offset of a row is [key * vec_dim] computed in [UI32_t]
    arithmetic, so the scatter-accumulate and the 2D update only see a row
    key through that product modulo 2^32: two row-index arrays whose
    products with [vec_dim] agree modulo 2^32 give the same buffers. *)
Theorem row_offsets_wrap :
  forall sp_size sp_idx row_idx row_idx' stu sta alpha vec_dim,
    (forall i, (row_idx i * vec_dim) mod 2 ^ 32 = (row_idx' i * vec_dim) mod 2 ^ 32) ->
    cy_lut_bp sp_size sp_idx row_idx stu vec_dim
    = cy_lut_bp sp_size sp_idx row_idx' stu vec_dim
    /\ cy_ag_update_2d sp_size sp_idx row_idx sta alpha vec_dim
       = cy_ag_update_2d sp_size sp_idx row_idx' sta alpha vec_dim.
Proof.
  intros until vec_dim. intros H.
  unfold cy_lut_bp, cy_ag_update_2d. split.
  - apply for_range_ext. intros sp_i t. cbv zeta. unfold u32 at 2 4.
    now rewrite H.
  - apply for_range_ext. intros sp_i t. cbv zeta. unfold u32.
    now rewrite H.
Qed.

Lemma row_offsets_wrap_witness :
  let stu := mk_lut (fun p => IZR p) (fun _ => 0%R) in
  cy_lut_bp 2 (fun k => k) (fun _ => 0) stu 2
  = cy_lut_bp 2 (fun k => k) (fun _ => 2 ^ 31) stu 2.
Proof.
  intros stu.
  apply (row_offsets_wrap 2 (fun k => k) (fun _ => 0) (fun _ => 2 ^ 31) stu
           (mk_ag (fun _ => 0%R) (fun _ => 0%R) (fun _ => 0%R)) 1%R 2).
  intros i. reflexivity.
Defined.
